(** * mines.c: a shallow embedding of the terminal Minesweeper

    The program keeps its board in globals: [width], [height], [num_mines]
    and the array [cells] of [height*width] records, addressed as
    [cells[y*width+x]].  They are parameters here.  C [int]s are modelled
    as [Z]: the functions below compute indices below [width*height],
    counts of neighbours and counters that start at [num_mines] or
    [width*height] and go down by one per cell, so nothing leaves the range
    of [int] once [width*height] fits in it.  The array is a [list cell]; a
    read outside the array is undefined behaviour in C and is [None] here.

    The file has three parts: the functions of mines.c, the vocabulary in
    which their properties are stated, and the properties. *)

From stdpp Require Import base decidable numbers option list.
From Stdlib Require Import ZArith Lia.

Local Open Scope Z_scope.

(** ** Data *)

Inductive cell_state := COVERED | UNCOVERED | FLAGGED | EXPLODED.

#[global] Instance cell_state_eq_dec : EqDecision cell_state.
Proof. solve_decision. Defined.

Record cell := Cell {
  is_mine : bool;
  state : cell_state;
  neighbors : Z;
}.

#[global] Instance cell_eq_dec : EqDecision cell.
Proof. solve_decision. Defined.

(** [c->state = s], [c->is_mine = true] and [c->neighbors = n]. *)
Definition set_state (c : cell) (s : cell_state) : cell :=
  {| is_mine := is_mine c; state := s; neighbors := neighbors c |}.

Definition set_mine (c : cell) : cell :=
  {| is_mine := true; state := state c; neighbors := neighbors c |}.

Definition set_neighbors (c : cell) (n : Z) : cell :=
  {| is_mine := is_mine c; state := state c; neighbors := n |}.

(** [memset(cells, 0, ...)]: not a mine, [COVERED] (the enum's 0), 0 neighbors. *)
Definition zero_cell : cell :=
  {| is_mine := false; state := COVERED; neighbors := 0 |}.

Definition coord : Type := Z * Z.

(** [int] has 32 bits.  [wrap z] is the [int] that the program holds where
    the exact result is [z], and [int_mul] the [*] of two [int]s. *)
Definition INT_MAX : Z := 2147483647.
Definition INT_MIN : Z := -2147483648.

Definition wrap (z : Z) : Z := (z - INT_MIN) mod 2 ^ 32 + INT_MIN.

Definition int_mul (a b : Z) : Z := wrap (a * b).

(** Array reads and writes. *)
Definition load (cells : list cell) (k : Z) : option cell :=
  if decide (0 ≤ k) then cells !! Z.to_nat k else None.

Definition store (cells : list cell) (k : Z) (c : cell) : list cell :=
  <[Z.to_nat k := c]> cells.

(** Sequential loops whose body may fail. *)
Fixpoint for_each {A S : Type} (body : A → S → option S) (l : list A) (s : S)
  : option S :=
  match l with
  | [] => Some s
  | a :: l' =>
      match body a s with
      | Some s' => for_each body l' s'
      | None => None
      end
  end.

(** The nine cells visited by
    [for (j=y-1; j<=y+1; ++j) for (i=x-1; i<=x+1; ++i)], in that order. *)
Definition window (p : coord) : list coord :=
  j ← [p.2 - 1; p.2; p.2 + 1];
  i ← [p.1 - 1; p.1; p.1 + 1];
  [(i, j)].

Section Board.

Variables width height : Z.

Definition index (p : coord) : Z := p.2 * width + p.1.

(** [i >= 0 && i < width && j >= 0 && j < height] *)
Definition in_grid (q : coord) : Prop :=
  0 ≤ q.1 ∧ q.1 < width ∧ 0 ≤ q.2 ∧ q.2 < height.

#[global] Instance in_grid_dec q : Decision (in_grid q).
Proof. unfold in_grid. apply _. Defined.

(** The cells on which the body of the neighbour loops runs: inside the
    grid and not the centre [!(i == x && j == y)]. *)
Definition around (p : coord) : list coord :=
  filter (λ q, in_grid q ∧ ¬ (q.1 = p.1 ∧ q.2 = p.2)) (window p).

Definition cell_at (cells : list cell) (p : coord) : option cell :=
  load cells (index p).

Definition state_at (cells : list cell) (p : coord) : option cell_state :=
  state <$> cell_at cells p.

(** *** [flag] *)
Definition flag (p : coord) (cells : list cell) : option (list cell) :=
  c ← cell_at cells p;
  match state c with
  | COVERED => Some (store cells (index p) (set_state c FLAGGED))
  | FLAGGED => Some (store cells (index p) (set_state c COVERED))
  | _ => Some cells
  end.

(** *** [uncover] *)

(** The first loop of the chord branch:
    [flags_remaining] starts at [c->neighbors] and loses one per flagged
    neighbour. *)
Definition count_flags (cells : list cell) (start : Z) (l : list coord)
  : option Z :=
  for_each (λ q flags_remaining,
              c' ← cell_at cells q;
              Some (if decide (state c' = FLAGGED)
                    then flags_remaining - 1 else flags_remaining))
           l start.

(** The recursion of [uncover] is not structural; [fuel] bounds the depth
    of the call stack.  [uncover_enough] below shows that a depth of
    [2 * covered + 1] is always enough, and [uncover_fuel_mono] that the
    result does not depend on it. *)
Fixpoint uncover (fuel : nat) (p : coord) (cells : list cell)
  : option (list cell) :=
  match fuel with
  | O => None
  | S fuel =>
      c ← cell_at cells p;
      match state c with
      | COVERED =>
          if is_mine c then
            Some (store cells (index p) (set_state c EXPLODED))
          else
            let cells := store cells (index p) (set_state c UNCOVERED) in
            if decide (neighbors c = 0) then
              for_each (uncover fuel) (around p) cells
            else Some cells
      | UNCOVERED =>
          flags_remaining ← count_flags cells (neighbors c) (around p);
          if decide (flags_remaining = 0) then
            for_each (λ q cells,
                        c' ← cell_at cells q;
                        if decide (state c' = COVERED)
                        then uncover fuel q cells else Some cells)
                     (around p) cells
          else Some cells
      | _ => Some cells
      end
  end.


(** [uncover] again, with a ghost log of the cells whose [state] field it
    writes, in the order of the writes.  [uncover_trace_cells] relates it to
    [uncover]. *)
Fixpoint uncover_trace (fuel : nat) (p : coord) (st : list cell * list coord)
  : option (list cell * list coord) :=
  match fuel with
  | O => None
  | S fuel =>
      c ← cell_at st.1 p;
      match state c with
      | COVERED =>
          if is_mine c then
            Some (store st.1 (index p) (set_state c EXPLODED), st.2 ++ [p])
          else
            let st := (store st.1 (index p) (set_state c UNCOVERED),
                       st.2 ++ [p]) in
            if decide (neighbors c = 0) then
              for_each (uncover_trace fuel) (around p) st
            else Some st
      | UNCOVERED =>
          flags_remaining ← count_flags st.1 (neighbors c) (around p);
          if decide (flags_remaining = 0) then
            for_each (λ q st,
                        c' ← cell_at st.1 q;
                        if decide (state c' = COVERED)
                        then uncover_trace fuel q st else Some st)
                     (around p) st
          else Some st
      | _ => Some st
      end
  end.

(** [uncover] once more, with a ghost log of what the call does: the
    writes to [state] and the recursive calls, each with the cell [p] of
    the invocation that makes it and with the loop it is made from.
    [uncover_events_cells] and [uncover_events_writes] relate it to
    [uncover] and to [uncover_trace]. *)
Inductive event :=
  | Write (p : coord)       (* [c->state = ...] on the cell [p] *)
  | Cascade (p q : coord)   (* [uncover(q)] in the loop of the zero [p] *)
  | Chord (p q : coord).    (* [uncover(q)] in the chord loop of [p] *)

Fixpoint uncover_events (fuel : nat) (p : coord) (st : list cell * list event)
  : option (list cell * list event) :=
  match fuel with
  | O => None
  | S fuel =>
      c ← cell_at st.1 p;
      match state c with
      | COVERED =>
          if is_mine c then
            Some (store st.1 (index p) (set_state c EXPLODED),
                  st.2 ++ [Write p])
          else
            let st := (store st.1 (index p) (set_state c UNCOVERED),
                       st.2 ++ [Write p]) in
            if decide (neighbors c = 0) then
              for_each (λ q st,
                          uncover_events fuel q (st.1, st.2 ++ [Cascade p q]))
                       (around p) st
            else Some st
      | UNCOVERED =>
          flags_remaining ← count_flags st.1 (neighbors c) (around p);
          if decide (flags_remaining = 0) then
            for_each (λ q st,
                        c' ← cell_at st.1 q;
                        if decide (state c' = COVERED)
                        then uncover_events fuel q
                               (st.1, st.2 ++ [Chord p q])
                        else Some st)
                     (around p) st
          else Some st
      | _ => Some st
      end
  end.

(** Number of [COVERED] cells, and the stack depth that suffices for a
    call of [uncover] from the main loop. *)
Definition covered (cells : list cell) : nat :=
  length (filter (λ c, state c = COVERED) cells).

Definition reveal (p : coord) (cells : list cell) : option (list cell) :=
  uncover (2 * covered cells + 1) p cells.

(** *** [generate_mines]

    [rand()] is an oracle: the list [rs] holds the values its future calls
    return (all non-negative, hence [N]).  The loop reads two of them per
    iteration; when the list runs dry before [num_mines] mines are placed
    the result is [None], which stands for a run of the C loop that has not
    finished after that many draws. *)
Variable num_mines : Z.

Fixpoint generate_loop (rs : list N) (start : coord) (i : Z)
    (cells : list cell) : option (list cell * list N) :=
  if decide (i < num_mines) then
    match rs with
    | r1 :: r2 :: rs' =>
        let x := Z.rem (Z.of_N r1) width in
        let y := Z.rem (Z.of_N r2) height in
        if decide (¬ (x = start.1 ∧ y = start.2)) then
          c ← cell_at cells (x, y);
          if is_mine c then generate_loop rs' start i cells
          else generate_loop rs' start (i + 1)
                 (store cells (index (x, y)) (set_mine c))
        else generate_loop rs' start i cells
    | _ => None
    end
  else Some (cells, rs).

Definition generate_mines (rs : list N) (start : coord) (cells : list cell)
  : option (list cell * list N) :=
  generate_loop rs start 0 cells.

(** The same loop with a ghost log of the cells it turned into mines. *)
Fixpoint generate_trace (rs : list N) (start : coord) (i : Z)
    (st : list cell * list coord) : option (list cell * list coord) :=
  if decide (i < num_mines) then
    match rs with
    | r1 :: r2 :: rs' =>
        let x := Z.rem (Z.of_N r1) width in
        let y := Z.rem (Z.of_N r2) height in
        if decide (¬ (x = start.1 ∧ y = start.2)) then
          c ← cell_at st.1 (x, y);
          if is_mine c then generate_trace rs' start i st
          else generate_trace rs' start (i + 1)
                 (store st.1 (index (x, y)) (set_mine c), st.2 ++ [(x, y)])
        else generate_trace rs' start i st
    | _ => None
    end
  else Some st.

(** *** [calculate_neighbors] *)

(** [for (y=0; y<height; ++y) for (x=0; x<width; ++x)] *)
Definition all_cells : list coord :=
  y ← seqZ 0 height; x ← seqZ 0 width; [(x, y)].

(** The inner two loops: [num_neighbors] counts the mines around [p]. *)
Definition count_mines (cells : list cell) (l : list coord) : option Z :=
  for_each (λ q num_neighbors,
              c' ← cell_at cells q;
              Some (if is_mine c' then num_neighbors + 1 else num_neighbors))
           l 0.

Definition calculate_neighbors (cells : list cell) : option (list cell) :=
  for_each (λ p cells,
              num_neighbors ← count_mines cells (around p);
              c ← cell_at cells p;
              Some (store cells (index p) (set_neighbors c num_neighbors)))
           all_cells cells.


(** *** [draw]

    Only the two status rows of the screen are modelled, row [height] and
    row [height+1] of a window that has them; the cell symbols, drawn on
    the rows above, and the colours are left out.  Curses keeps the screen
    between calls, so [draw] maps the old screen to the new one. *)
Inductive line :=
  | Blank
  | YouWin                      (* "You Win!" *)
  | GameOver                    (* "Game Over" *)
  | UnflaggedMines (n : Z).     (* "Unflagged Mines: %d" *)

Record screen := Screen {
  row_height : line;            (* row [height+0] *)
  row_below : line;             (* row [height+1] *)
}.

Record draw_vars := DrawVars {
  gameover : bool;
  unflagged_mines : Z;
  uncovers_remaining : Z;
}.

(** One iteration of the double loop of [draw]. *)
Definition draw_cell (cells : list cell) (p : coord)
    (st : draw_vars * screen) : option (draw_vars * screen) :=
  c ← cell_at cells p;
  let v := st.1 in
  let v :=
    match state c with
    | COVERED => v
    | UNCOVERED =>
        DrawVars (gameover v) (unflagged_mines v) (uncovers_remaining v - 1)
    | FLAGGED =>
        DrawVars (gameover v) (unflagged_mines v - 1) (uncovers_remaining v)
    | EXPLODED =>
        DrawVars true (unflagged_mines v) (uncovers_remaining v)
    end in
  (* move(height+1, 0); clrtoeol(); *)
  let scr := Screen (row_height st.2) Blank in
  let scr :=
    if gameover v then Screen (row_height scr) GameOver
    else if decide (uncovers_remaining v = 0)
         then Screen YouWin (row_below scr)
         else Screen (row_height scr) (UnflaggedMines (unflagged_mines v)) in
  Some (v, scr).

Definition draw_loop (cells : list cell) (scr : screen)
  : option (draw_vars * screen) :=
  for_each (draw_cell cells) all_cells
           (DrawVars false num_mines (height * width - num_mines), scr).

Definition draw (cells : list cell) (scr : screen) : option screen :=
  snd <$> draw_loop cells scr.

(** What the player reads on the screen. *)
Definition reports_lost (scr : screen) : Prop := row_below scr = GameOver.
Definition reports_won (scr : screen) : Prop := row_height scr = YouWin.

(** *** The loop of [main] *)
Inductive key :=
  | KEY_RIGHT | KEY_LEFT | KEY_UP | KEY_DOWN   (* arrows, or l h k j *)
  | KEY_UNCOVER                                (* ' ' or z *)
  | KEY_FLAG                                   (* x or f *)
  | KEY_NEW                                    (* n *)
  | KEY_QUIT                                   (* q *)
  | KEY_OTHER.

Record session := Session {
  s_cells : list cell;
  s_generated : bool;
  s_new_game : bool;
  s_game_active : bool;
  s_cursor : coord;
  s_rand : list N;
  s_screen : screen;
}.

(** [cells = malloc(height*width*sizeof(struct cell))] and
    [memset(cells, 0, height*width*sizeof(struct cell))]: [height*width] is
    a product of two [int]s, so the array has [int_mul height width] cells,
    fewer than the grid when the product does not fit.  When the [int] is
    negative the [size_t] made of it is out of reach of [malloc]: there is
    no array, and the empty list stands for it. *)
Definition zeroed : list cell :=
  replicate (Z.to_nat (int_mul height width)) zero_cell.

Definition initial (rs : list N) : session :=
  Session zeroed false false true (0, 0) rs (Screen Blank Blank).

Definition with_cursor (s : session) (c : coord) : session :=
  Session (s_cells s) (s_generated s) (s_new_game s) (s_game_active s) c
          (s_rand s) (s_screen s).

Definition with_cells (s : session) (cells : list cell) : session :=
  Session cells (s_generated s) (s_new_game s) (s_game_active s) (s_cursor s)
          (s_rand s) (s_screen s).

(** [if (new_game) { memset...; generated = false; new_game = false; }] *)
Definition reset_if_new (s : session) : session :=
  if s_new_game s then
    Session zeroed false false (s_game_active s) (s_cursor s) (s_rand s)
            (s_screen s)
  else s.

(** [if (!generated) { generate_mines(...); calculate_neighbors(); ... }] *)
Definition ensure_generated (s : session) : option session :=
  if s_generated s then Some s
  else
    g ← generate_mines (s_rand s) (s_cursor s) (s_cells s);
    cells ← calculate_neighbors g.1;
    Some (Session cells true (s_new_game s) (s_game_active s) (s_cursor s)
                  g.2 (s_screen s)).

(** The [switch (ch)]. *)
Definition handle_key (k : key) (s : session) : option session :=
  let '(x, y) := s_cursor s in
  match k with
  | KEY_RIGHT =>
      Some (if decide (x < width - 1) then with_cursor s (x + 1, y) else s)
  | KEY_LEFT => Some (if decide (x > 0) then with_cursor s (x - 1, y) else s)
  | KEY_UP => Some (if decide (y > 0) then with_cursor s (x, y - 1) else s)
  | KEY_DOWN =>
      Some (if decide (y < height - 1) then with_cursor s (x, y + 1) else s)
  | KEY_UNCOVER =>
      s ← ensure_generated s;
      cells ← reveal (s_cursor s) (s_cells s);
      Some (with_cells s cells)
  | KEY_FLAG =>
      cells ← flag (s_cursor s) (s_cells s);
      Some (with_cells s cells)
  | KEY_NEW =>
      Some (Session (s_cells s) (s_generated s) true (s_game_active s)
                    (s_cursor s) (s_rand s) (s_screen s))
  | KEY_QUIT =>
      Some (Session (s_cells s) (s_generated s) (s_new_game s) false
                    (s_cursor s) (s_rand s) (s_screen s))
  | KEY_OTHER => Some s
  end.

(** One turn of [while (game_active)] on the key that [getch] returns. *)
Definition step (k : key) (s : session) : option session :=
  s ← handle_key k (reset_if_new s);
  scr ← draw (s_cells s) (s_screen s);
  Some (Session (s_cells s) (s_generated s) (s_new_game s) (s_game_active s)
                (s_cursor s) (s_rand s) scr).

Definition run (keys : list key) (s : session) : option session :=
  for_each (λ k s, if s_game_active s then step k s else Some s) keys s.

Definition reachable (s : session) : Prop :=
  ∃ rs keys, run keys (initial rs) = Some s.

End Board.

(** ** Start-up: [parse_opt] and the head of [main] *)
Inductive opt_key := OPT_h | OPT_w | OPT_m | OPT_other.

Record globals := Globals {
  g_height : Z;
  g_width : Z;
  g_num_mines : Z;
  g_custom_num_mines : bool;
  g_game_active : bool;
}.

Definition initial_globals : globals := Globals 20 20 60 false true.

Definition MINE_GEN_RATIO : Z := 6.

(** [arg] is what [sscanf(arg, "%i", ...)] reads: [None] when it does not
    return 1. *)
Definition parse_opt (k : opt_key) (arg : option Z) (g : globals) : globals :=
  match k with
  | OPT_h =>
      match arg with
      | Some v => Globals v (g_width g) (g_num_mines g)
                          (g_custom_num_mines g) (g_game_active g)
      | None => Globals (g_height g) (g_width g) (g_num_mines g)
                        (g_custom_num_mines g) false
      end
  | OPT_w =>
      match arg with
      | Some v => Globals (g_height g) v (g_num_mines g)
                          (g_custom_num_mines g) (g_game_active g)
      | None => Globals (g_height g) (g_width g) (g_num_mines g)
                        (g_custom_num_mines g) false
      end
  | OPT_m =>
      match arg with
      | Some v => Globals (g_height g) (g_width g) v
                          (g_custom_num_mines g) (g_game_active g)
      | None => Globals (g_height g) (g_width g) (g_num_mines g)
                        (g_custom_num_mines g) false
      end
  | OPT_other => g
  end.

(** [argp_parse] followed by
    [if (!custom_num_mines) num_mines = (width*height)/MINE_GEN_RATIO;],
    a product and a quotient of [int]s. *)
Definition main_setup (opts : list (opt_key * option Z)) : globals :=
  let g := foldl (λ g o, parse_opt o.1 o.2 g) initial_globals opts in
  if g_custom_num_mines g then g
  else Globals (g_height g) (g_width g)
               (Z.quot (int_mul (g_width g) (g_height g)) MINE_GEN_RATIO)
               (g_custom_num_mines g) (g_game_active g).

(** ** Vocabulary of the specification *)

(** Two cells are adjacent when they differ and their coordinates differ
    by at most one (no wrap-around at the edges of the grid). *)
Definition adjacent (p q : coord) : Prop :=
  p ≠ q ∧ Z.abs (q.1 - p.1) ≤ 1 ∧ Z.abs (q.2 - p.2) ≤ 1.

#[global] Instance adjacent_dec p q : Decision (adjacent p q).
Proof. unfold adjacent. apply _. Defined.

(** Number of cells of the array that hold a mine. *)
Definition mines (cells : list cell) : nat :=
  length (filter (λ c, is_mine c = true) cells).

(** What [generate_mines] leaves alone. *)
Definition same_states_and_counts (cells cells' : list cell) : Prop :=
  Forall2 (λ c c', state c' = state c ∧ neighbors c' = neighbors c)
          cells cells'.

(** The moves allowed to a cell that holds a mine: stay as it is, go
    between [COVERED] and [FLAGGED], or go from [COVERED] to [EXPLODED]. *)
Definition mine_moves (c c' : cell) : Prop :=
  is_mine c = true →
  is_mine c' = true ∧
  (state c' = state c ∨
   (state c = COVERED ∧ state c' = FLAGGED) ∨
   (state c = FLAGGED ∧ state c' = COVERED) ∨
   (state c = COVERED ∧ state c' = EXPLODED)).

(** What [flag] may do to a cell. *)
Definition cell_flags (c c' : cell) : Prop :=
  is_mine c' = is_mine c ∧ neighbors c' = neighbors c ∧
  (state c' = state c ∨
   (state c = COVERED ∧ state c' = FLAGGED) ∨
   (state c = FLAGGED ∧ state c' = COVERED)).

(** What mine placement and counting may do to a cell. *)
Definition cell_prepared (c c' : cell) : Prop :=
  (is_mine c = true → is_mine c' = true) ∧ state c' = state c.

(** No mine is [UNCOVERED]; and before the mines are placed no cell is. *)
Definition safe (generated : bool) (cells : list cell) : Prop :=
  Forall (λ c, is_mine c = true → state c ≠ UNCOVERED) cells ∧
  (generated = false → Forall (λ c, state c ≠ UNCOVERED) cells).

(** Number of [UNCOVERED] cells of the array. *)
Definition uncovered (cells : list cell) : nat :=
  length (filter (λ c, state c = UNCOVERED) cells).

(** [toggle_flag] on a state, in the words of the specification. *)
Definition toggled (s : cell_state) : cell_state :=
  match s with
  | COVERED => FLAGGED
  | FLAGGED => COVERED
  | UNCOVERED => UNCOVERED
  | EXPLODED => EXPLODED
  end.

Section Vocabulary.

Variables width height : Z.

Local Abbreviation index := (index width).
Local Abbreviation in_grid := (in_grid width height).
Local Abbreviation around := (around width height).
Local Abbreviation cell_at := (cell_at width).
Local Abbreviation state_at := (state_at width).
Local Abbreviation all_cells := (all_cells width height).

(** The array has one cell for each cell of the grid, the size that [main]
    allocates when [height*width] fits an [int]. *)
Definition sized (cells : list cell) : Prop :=
  Z.of_nat (length cells) = height * width.

(** What [uncover] may do to a cell: nothing, or take it out of [COVERED],
    a mine to [EXPLODED] and any other cell to [UNCOVERED]. *)
Definition cell_evolves (c c' : cell) : Prop :=
  is_mine c' = is_mine c ∧ neighbors c' = neighbors c ∧
  (state c' = state c ∨
   (state c = COVERED ∧
    state c' = if is_mine c then EXPLODED else UNCOVERED)).

Definition evolves (cells cells' : list cell) : Prop :=
  Forall2 cell_evolves cells cells'.

(** Stack depth that a call of [uncover] at [p] needs at most. *)
Definition need (cells : list cell) (p : coord) : nat :=
  2 * covered cells +
  match state_at cells p with Some COVERED => 0 | _ => 1 end.

(** The ghost log of [uncover_trace] grows by [new]: the cells that left
    [COVERED] between the two boards, each listed once. *)
Definition logged (st st' : list cell * list coord) : Prop :=
  evolves st.1 st'.1 ∧
  ∃ new, st'.2 = st.2 ++ new ∧ NoDup new ∧
    (covered st'.1 + length new = covered st.1)%nat ∧
    ∀ q, q ∈ new ↔
         in_grid q ∧ state_at st.1 q = Some COVERED ∧
         state_at st'.1 q ≠ Some COVERED.



(** The number of mines among the grid cells adjacent to [p]. *)
Definition mine_at (cells : list cell) (q : coord) : Prop :=
  is_mine <$> cell_at cells q = Some true.

#[global] Instance mine_at_dec cells q : Decision (mine_at cells q).
Proof. unfold mine_at. apply _. Defined.

Definition adjacent_mines (cells : list cell) (p : coord) : Z :=
  Z.of_nat (length (filter (λ q, adjacent p q ∧ mine_at cells q) all_cells)).

(** Every cell of the grid holds its number of adjacent mines. *)
Definition counts_ok (cells : list cell) : Prop :=
  ∀ p c, in_grid p → cell_at cells p = Some c →
         neighbors c = adjacent_mines cells p.

(** [calculate_neighbors] writes the [neighbors] fields only. *)
Definition same_mines_and_states (cells cells' : list cell) : Prop :=
  Forall2 (λ c c', is_mine c' = is_mine c ∧ state c' = state c) cells cells'.

(** The zero region of [p]: the cells with no adjacent mine that are
    linked to [p] through such cells; and the region with its boundary, the
    cells adjacent to it. *)
Definition zero_at (cells : list cell) (p : coord) : Prop :=
  neighbors <$> cell_at cells p = Some 0.

#[global] Instance zero_at_dec cells p : Decision (zero_at cells p).
Proof. unfold zero_at. apply _. Defined.

Inductive region (cells : list cell) (p : coord) : coord → Prop :=
  | region_start : region cells p p
  | region_step z q :
      region cells p z → q ∈ around z → zero_at cells q → region cells p q.



Definition no_flags (cells : list cell) : Prop :=
  Forall (λ c, state c ≠ FLAGGED) cells.

Definition exploded_are_mines (cells : list cell) : Prop :=
  Forall (λ c, state c = EXPLODED → is_mine c = true) cells.




(** The state of the loop, with its ghost log [st.2], after [i] mines
    have been placed on a board that had none. *)
Definition placed (start : coord) (cells0 : list cell) (i : Z)
    (st : list cell * list coord) : Prop :=
  same_states_and_counts cells0 st.1 ∧
  Z.of_nat (mines st.1) = i ∧
  Z.of_nat (length st.2) = i ∧
  NoDup st.2 ∧
  (∀ q, q ∈ st.2 → in_grid q ∧ q ≠ start) ∧
  (∀ q, in_grid q → mine_at st.1 q ↔ q ∈ st.2).

(** The results of [rand()] that make the loop of [generate_mines] pick
    the cells of [targets], one after the other. *)
Definition draws_for (targets : list coord) : list N :=
  q ← targets; [Z.to_N q.1; Z.to_N q.2].

End Vocabulary.

(** [counts_ok] and [closed] can be checked cell by cell. *)
Definition count_ok_at (width height : Z) (cells : list cell) (p : coord)
  : Prop :=
  match cell_at width cells p with
  | Some c => neighbors c = adjacent_mines width height cells p
  | None => True
  end.

#[global] Instance count_ok_at_dec width height cells p :
  Decision (count_ok_at width height cells p).
Proof. unfold count_ok_at. destruct (cell_at width cells p); apply _. Defined.

(** ** Boards of width 3 and height 2 used as examples *)

(** The board after a first [uncover] at (1,0), the mine being at (2,0). *)
Definition opened : list cell :=
  [ Cell false COVERED 0; Cell false UNCOVERED 1; Cell true COVERED 0;
    Cell false COVERED 0; Cell false COVERED 1;   Cell false COVERED 1 ].

(** The same board after a flag was put on (2,1), which hides no mine. *)
Definition misflagged : list cell :=
  [ Cell false COVERED 0; Cell false UNCOVERED 1; Cell true COVERED 0;
    Cell false COVERED 0; Cell false COVERED 1;   Cell false FLAGGED 1 ].

(** The mine at (2,1) exploded, then the last safe cell was uncovered. *)
Definition lost_then_cleared : session :=
  Session
    [ Cell false UNCOVERED 0; Cell false UNCOVERED 1; Cell false UNCOVERED 1;
      Cell false UNCOVERED 0; Cell false UNCOVERED 1; Cell true EXPLODED 0 ]
    true false true (2, 0) [] (Screen YouWin GameOver).

(** The flag is on (0,1), a cell of the zero region of (0,0); nothing is
    uncovered yet. *)
Definition flagged_zero : list cell :=
  [ Cell false COVERED 0; Cell false COVERED 1; Cell true COVERED 0;
    Cell false FLAGGED 0; Cell false COVERED 1; Cell false COVERED 1 ].

(** ** The log of a call of [uncover] *)

(** The cells to whose [state] the log has a write, in the order of the
    writes. *)
Definition writes (log : list event) : list coord :=
  omap (λ e, match e with Write p => Some p | _ => None end) log.

(** The last clause of C7 on a log: when [uncover] comes back to a cell
    whose [state] was written, that cell is not the source of a recursive
    call again, that is, no call from the chord loop of a cell follows the
    write to that cell. *)
Definition revisits_idle (log : list event) : Prop :=
  ∀ i j p q, (i < j)%nat →
    log !! i = Some (Write p) → log !! j ≠ Some (Chord p q).

(** ** Other boards used as examples *)

(** The 4 by 2 board with its mine at (3,0) and a flag on (3,1), which
    hides no mine; nothing is uncovered yet. *)
Definition wrong_flag : list cell :=
  [ zero_cell; zero_cell; Cell false COVERED 1; Cell true COVERED 0;
    zero_cell; zero_cell; Cell false COVERED 1; Cell false FLAGGED 1 ].

(** The 5 by 1 board, without mines: flags on (0,0) and (3,0) stopped the
    cascade of the first reveal at (1,0) and were taken off afterwards. *)
Definition unflagged_later : session :=
  Session
    [ Cell false COVERED 0; Cell false UNCOVERED 0; Cell false UNCOVERED 0;
      Cell false COVERED 0; Cell false COVERED 0 ]
    true false true (3, 0) [] (Screen Blank (UnflaggedMines 0)).

(** The 1 by 1 board, won, after [n] and one more key. *)
Definition won_then_new : session :=
  Session [Cell false COVERED 0] false false true (0, 0) []
          (Screen YouWin (UnflaggedMines 0)).

(** The 3 by 3 board with its mine at (0,0), flagged, and all other cells
    uncovered. *)
Definition cleared_3_3 : list cell :=
  [ Cell true FLAGGED 0;    Cell false UNCOVERED 1; Cell false UNCOVERED 0;
    Cell false UNCOVERED 1; Cell false UNCOVERED 1; Cell false UNCOVERED 0;
    Cell false UNCOVERED 0; Cell false UNCOVERED 0; Cell false UNCOVERED 0 ].

(** The 5 by 5 board with one mine, at (2,2), and the counts around it. *)
Definition centre_mine : list cell :=
  [ zero_cell; zero_cell;             zero_cell;            zero_cell;             zero_cell;
    zero_cell; Cell false COVERED 1;  Cell false COVERED 1; Cell false COVERED 1;  zero_cell;
    zero_cell; Cell false COVERED 1;  Cell true COVERED 0;  Cell false COVERED 1;  zero_cell;
    zero_cell; Cell false COVERED 1;  Cell false COVERED 1; Cell false COVERED 1;  zero_cell;
    zero_cell; zero_cell;             zero_cell;            zero_cell;             zero_cell ].


(** ** Vocabulary of the further properties *)

#[global] Instance opt_key_eq_dec : EqDecision opt_key.
Proof. solve_decision. Defined.

(** An option of the command line whose argument [sscanf] does not read
    as a number. *)
Definition bad_option (o : opt_key * option Z) : Prop :=
  o.1 ≠ OPT_other ∧ o.2 = None.

#[global] Instance bad_option_dec o : Decision (bad_option o).
Proof. unfold bad_option. apply _. Defined.

(** The last number given for option [k] on the command line, [d] when
    there is none. *)
Definition last_given (k : opt_key) (d : Z) (opts : list (opt_key * option Z))
  : Z :=
  default d (last (omap (λ o, if decide (o.1 = k) then o.2 else None) opts)).

(** Number of [FLAGGED] cells of the array. *)
Definition flagged (cells : list cell) : nat :=
  length (filter (λ c, state c = FLAGGED) cells).

(** Every flag stands on a mine. *)
Definition flags_on_mines (cells : list cell) : Prop :=
  Forall (λ c, state c = FLAGGED → is_mine c = true) cells.

(** No cell is [EXPLODED] that was not before. *)
Definition no_new_explosion (cells cells' : list cell) : Prop :=
  Forall2 (λ c c', state c' = EXPLODED → state c = EXPLODED) cells cells'.

(** A cell before and after a call of [uncover], field by field. *)
Definition after_uncover (c c' : cell) : Prop :=
  is_mine c' = is_mine c ∧
  neighbors c' = neighbors c ∧
  (state c' = FLAGGED ↔ state c = FLAGGED) ∧
  (state c' = COVERED → state c = COVERED) ∧
  (state c ≠ COVERED → state c' = state c) ∧
  (state c' ≠ state c →
   state c' = if is_mine c then EXPLODED else UNCOVERED).

(** The board before the mines are placed: as [memset] left it, up to
    flags. *)
Definition fresh (cells : list cell) : Prop :=
  Forall (λ c, is_mine c = false ∧ neighbors c = 0 ∧
               (state c = COVERED ∨ state c = FLAGGED)) cells.

Section MoreVocabulary.

Variables width height num_mines : Z.

(** Some cell of the grid is [EXPLODED]. *)
Definition exploded_somewhere (cells : list cell) : Prop :=
  ∃ q, in_grid width height q ∧ state_at width cells q = Some EXPLODED.

(** What the board of a running game looks like, before and after the
    mines are placed. *)
Definition well_formed (generated : bool) (cells : list cell) : Prop :=
  exploded_are_mines cells ∧
  Forall (λ c, state c = UNCOVERED → is_mine c = false) cells ∧
  if generated
  then Z.of_nat (mines cells) = num_mines ∧ counts_ok width height cells
  else fresh cells.

End MoreVocabulary.

(** [opened] after an [uncover] at (0,0). *)
Definition opened_more : list cell :=
  [ Cell false UNCOVERED 0; Cell false UNCOVERED 1; Cell true COVERED 0;
    Cell false UNCOVERED 0; Cell false UNCOVERED 1; Cell false COVERED 1 ].

(** The 3 by 2 game after a first uncover at (0,0), [rand()] having put
    the mine at (2,1). *)
Definition first_opened : session :=
  Session
    [ Cell false UNCOVERED 0; Cell false UNCOVERED 1; Cell false COVERED 1;
      Cell false UNCOVERED 0; Cell false UNCOVERED 1; Cell true COVERED 0 ]
    true false true (0, 0) [] (Screen Blank (UnflaggedMines 1)).

(** The 3 by 2 game after a flag on (2,1) and a first uncover at (0,0),
    [rand()] having put the mine at (2,0). *)
Definition lost_at_first_uncover : session :=
  Session
    [ Cell false UNCOVERED 0; Cell false UNCOVERED 1; Cell true EXPLODED 0;
      Cell false UNCOVERED 0; Cell false UNCOVERED 1; Cell false FLAGGED 1 ]
    true false true (0, 0) [] (Screen Blank GameOver).

(** ** Arrays and loops *)

Section Facts.

Variables width height : Z.

Local Abbreviation index := (index width).
Local Abbreviation in_grid := (in_grid width height).
Local Abbreviation around := (around width height).
Local Abbreviation cell_at := (cell_at width).
Local Abbreviation state_at := (state_at width).
Local Abbreviation sized := (sized width height).
Local Abbreviation all_cells := (all_cells width height).
Local Abbreviation placed := (placed width height).

Lemma index_range p : in_grid p → 0 ≤ index p < height * width.
Proof. unfold in_grid, index. nia. Qed.

Lemma index_inj p q : in_grid p → in_grid q → index p = index q → p = q.
Proof.
  destruct p as [x y], q as [x' y']. unfold in_grid, index. simpl.
  intros Hp Hq E.
  assert (y = y') by nia. subst y'.
  assert (x = x') by lia. by subst.
Qed.

Lemma load_Some cells k c :
  load cells k = Some c ↔ 0 ≤ k ∧ cells !! Z.to_nat k = Some c.
Proof. unfold load. case_decide; [tauto|]. split; [done|tauto]. Qed.

Lemma cell_at_is_Some cells p :
  sized cells → in_grid p → is_Some (cell_at cells p).
Proof.
  intros Hs Hp. pose proof (index_range p Hp) as Hr.
  unfold cell_at, load. rewrite decide_True by lia.
  apply lookup_lt_is_Some. unfold sized in Hs. lia.
Qed.

Lemma sized_store cells k c : sized cells → sized (store cells k c).
Proof. unfold sized, store. by rewrite length_insert. Qed.

Lemma cell_at_store_eq cells p c c' :
  cell_at cells p = Some c → cell_at (store cells (index p) c') p = Some c'.
Proof.
  unfold cell_at. rewrite !load_Some. intros [H0 Hl]. split; [done|].
  unfold store. apply list_lookup_insert_eq. by eapply lookup_lt_Some.
Qed.

Lemma cell_at_store_ne cells p q c' :
  in_grid p → in_grid q → p ≠ q →
  cell_at (store cells (index p) c') q = cell_at cells q.
Proof.
  intros Hp Hq Hne. unfold cell_at, load, store.
  pose proof (index_range p Hp). pose proof (index_range q Hq).
  rewrite !decide_True by lia.
  apply list_lookup_insert_ne. intros E. apply Hne.
  apply index_inj; [done..|]. lia.
Qed.

Lemma store_same cells p c :
  cell_at cells p = Some c → store cells (index p) c = cells.
Proof.
  unfold cell_at. rewrite load_Some. intros [_ Hl].
  by apply list_insert_id.
Qed.


(** The neighbour loops. *)
Lemma elem_of_window p q :
  q ∈ window p ↔
  (p.1 - 1 ≤ q.1 ≤ p.1 + 1) ∧ (p.2 - 1 ≤ q.2 ≤ p.2 + 1).
Proof.
  destruct p as [x y], q as [i j]. unfold window. simpl.
  rewrite !elem_of_cons, !elem_of_nil. split.
  - intros H. repeat destruct H as [H|H]; try done; injection H as -> ->; lia.
  - intros [Hi Hj].
    assert (i = x - 1 ∨ i = x ∨ i = x + 1) as Hi' by lia.
    assert (j = y - 1 ∨ j = y ∨ j = y + 1) as Hj' by lia.
    destruct Hi' as [->|[->| ->]], Hj' as [->|[->| ->]]; tauto.
Qed.

Lemma elem_of_around p q : q ∈ around p ↔ in_grid q ∧ adjacent p q.
Proof.
  unfold around. rewrite list_elem_of_filter, elem_of_window.
  unfold adjacent. destruct p as [x y], q as [i j]. simpl.
  split.
  - intros [[Hg Hne] [Hi Hj]]. split; [done|]. split; [|lia].
    intros [= -> ->]. tauto.
  - intros [Hg [Hne Hab]]. split; [|lia]. split; [done|].
    intros [-> ->]. done.
Qed.

Lemma around_in_grid p q : q ∈ around p → in_grid q.
Proof. rewrite elem_of_around. tauto. Qed.

Lemma around_sym p q : in_grid p → q ∈ around p → p ∈ around q.
Proof.
  rewrite !elem_of_around. unfold adjacent. intros Hp [Hq [Hne Hab]].
  split; [done|]. split; [congruence|lia].
Qed.

Lemma NoDup_window p : NoDup (window p).
Proof.
  destruct p as [x y]. unfold window. simpl.
  repeat (apply NoDup_cons; split;
          [rewrite ?elem_of_cons, elem_of_nil;
           intros H; repeat destruct H as [H|H]; try done;
           injection H; lia|]).
  apply NoDup_nil_2.
Qed.

Lemma NoDup_around p : NoDup (around p).
Proof. apply NoDup_filter, NoDup_window. Qed.

(** Loops. *)
Lemma for_each_app {A S} (body : A → S → option S) l1 l2 s :
  for_each body (l1 ++ l2) s = for_each body l1 s ≫= for_each body l2.
Proof.
  revert s. induction l1 as [|a l1 IH]; intros s; simpl; [done|].
  destruct (body a s); simpl; [apply IH|done].
Qed.

(** A loop invariant: [R] relates the state before and after any number
    of iterations, [Q a] is established by the iteration on [a] and kept
    by the later ones. *)
Lemma for_each_inv {A S} (R : S → S → Prop) (Q : A → S → Prop)
    (body : A → S → option S) l s0 s' :
  (∀ s, R s s) →
  (∀ s1 s2 s3, R s1 s2 → R s2 s3 → R s1 s3) →
  (∀ a s1 s2, Q a s1 → R s1 s2 → Q a s2) →
  (∀ a s1 s2, a ∈ l → R s0 s1 → body a s1 = Some s2 → R s1 s2 ∧ Q a s2) →
  for_each body l s0 = Some s' →
  R s0 s' ∧ ∀ a, a ∈ l → Q a s'.
Proof.
  intros Hrefl Htrans Hkeep.
  revert s0. induction l as [|a l IH]; intros s0 Hbody Hrun; simpl in Hrun.
  - injection Hrun as <-. split; [done|]. intros a Ha. by apply elem_of_nil in Ha.
  - destruct (body a s0) as [s1|] eqn:E; [|done].
    destruct (Hbody a s0 s1) as [HR HQ]; [left|done..|].
    destruct (IH s1) as [HR' HQ']; [|done|].
    { intros b s2 s3 Hb HR2. apply Hbody; [by right|]. by eapply Htrans. }
    split; [by eapply Htrans|].
    intros b [->|Hb]%elem_of_cons; [by eapply Hkeep|by apply HQ'].
Qed.

(** Progress: when every iteration succeeds from any state related to
    the start, the loop does. *)
Lemma for_each_total {A S} (R : S → S → Prop)
    (body : A → S → option S) l s0 :
  (∀ s, R s s) →
  (∀ s1 s2 s3, R s1 s2 → R s2 s3 → R s1 s3) →
  (∀ a s1, a ∈ l → R s0 s1 → ∃ s2, body a s1 = Some s2 ∧ R s1 s2) →
  ∃ s', for_each body l s0 = Some s' ∧ R s0 s'.
Proof.
  intros Hrefl Htrans.
  revert s0. induction l as [|a l IH]; intros s0 Hbody; simpl.
  - eauto.
  - destruct (Hbody a s0) as (s1 & E & HR); [left|done|]. rewrite E.
    destruct (IH s1) as (s' & E' & HR').
    { intros b s2 Hb HR2. apply Hbody; [by right|]. by eapply Htrans. }
    exists s'. split; [done|]. by eapply Htrans.
Qed.

(** ** [uncover]: what it may change *)

Lemma cell_evolves_refl c : cell_evolves c c.
Proof. unfold cell_evolves. tauto. Qed.

Lemma cell_evolves_trans c1 c2 c3 :
  cell_evolves c1 c2 → cell_evolves c2 c3 → cell_evolves c1 c3.
Proof.
  unfold cell_evolves. intros (Hm & Hn & H12) (Hm' & Hn' & H23).
  split; [congruence|]. split; [congruence|].
  destruct H12 as [E|[E1 E2]], H23 as [E'|[E1' E2']].
  - left. congruence.
  - right. rewrite <- E, <- Hm. done.
  - right. split; [done|]. congruence.
  - exfalso. rewrite E1' in E2. by destruct (is_mine c1).
Qed.

Lemma evolves_refl cells : evolves cells cells.
Proof. apply Forall_Forall2_diag, Forall_forall. intros. apply cell_evolves_refl. Qed.

Lemma evolves_trans cells1 cells2 cells3 :
  evolves cells1 cells2 → evolves cells2 cells3 → evolves cells1 cells3.
Proof.
  unfold evolves. intros H12. revert cells3.
  induction H12 as [|c1 c2 l1 l2 Hc _ IH]; intros cells3 H23.
  - by inversion H23.
  - inversion H23 as [|? c3 ? l3 Hc' H23']; subst.
    constructor; [by eapply cell_evolves_trans|by apply IH].
Qed.

Lemma evolves_length cells cells' :
  evolves cells cells' → length cells' = length cells.
Proof. intros H. symmetry. by eapply Forall2_length. Qed.

Lemma evolves_sized cells cells' : evolves cells cells' → sized cells → sized cells'.
Proof. unfold sized. intros ->%evolves_length. done. Qed.

Lemma evolves_cell_at cells cells' p c :
  evolves cells cells' → cell_at cells p = Some c →
  ∃ c', cell_at cells' p = Some c' ∧ cell_evolves c c'.
Proof.
  unfold cell_at. intros He [H0 Hl]%load_Some.
  destruct (Forall2_lookup_l _ _ _ _ _ He Hl) as (c' & Hl' & Hc).
  exists c'. split; [|done]. by apply load_Some.
Qed.

Lemma evolves_cell_at_rev cells cells' p c' :
  evolves cells cells' → cell_at cells' p = Some c' →
  ∃ c, cell_at cells p = Some c ∧ cell_evolves c c'.
Proof.
  unfold cell_at. intros He [H0 Hl]%load_Some.
  destruct (Forall2_lookup_r _ _ _ _ _ He Hl) as (c & Hl' & Hc).
  exists c. split; [|done]. by apply load_Some.
Qed.

Lemma evolves_store cells p c c' :
  cell_at cells p = Some c → cell_evolves c c' →
  evolves cells (store cells (index p) c').
Proof.
  unfold cell_at. intros [H0 Hl]%load_Some Hc. unfold evolves, store.
  rewrite <- (list_insert_id cells (Z.to_nat (index p)) c) at 1 by done.
  apply Forall2_insert; [|done]. apply evolves_refl.
Qed.

Lemma count_flags_is_Some cells start l :
  sized cells → (∀ q, q ∈ l → in_grid q) →
  is_Some (count_flags width cells start l).
Proof.
  intros Hs. unfold count_flags. revert start.
  induction l as [|q l IH]; intros start Hl; simpl; [by eexists|].
  destruct (cell_at_is_Some cells q) as [c Hc]; [done|apply Hl; left|].
  rewrite Hc. simpl. apply IH. intros q' Hq'. apply Hl. by right.
Qed.

Lemma uncover_evolves fuel p cells cells' :
  uncover width height fuel p cells = Some cells' → evolves cells cells'.
Proof.
  revert p cells cells'. induction fuel as [|fuel IH]; intros p cells cells' H;
    simpl in H; [done|].
  destruct (cell_at cells p) as [c|] eqn:Hc; simpl in H; [|done].
  destruct (state c) eqn:Hst.
  - destruct (is_mine c) eqn:Hm.
    + injection H as <-. eapply evolves_store; [done|].
      unfold cell_evolves. simpl. rewrite Hst, Hm. tauto.
    + assert (evolves cells (store cells (index p) (set_state c UNCOVERED)))
        as He.
      { eapply evolves_store; [done|].
        unfold cell_evolves. simpl. rewrite Hst, Hm. tauto. }
      case_decide.
      * eapply evolves_trans; [done|].
        eapply (for_each_inv evolves (λ _ _, True)); [..|done].
        -- apply evolves_refl.
        -- apply evolves_trans.
        -- done.
        -- intros a s1 s2 _ _ Ha. split; [by eapply IH|done].
      * by injection H as <-.
  - destruct (count_flags _ _ _ _) as [fr|]; simpl in H; [|done].
    case_decide.
    + eapply (for_each_inv evolves (λ _ _, True)); [..|done].
      * apply evolves_refl.
      * apply evolves_trans.
      * done.
      * intros a s1 s2 _ _ Ha. split; [|done]. simpl in Ha.
        destruct (cell_at s1 a) as [c'|]; simpl in Ha; [|done].
        case_decide; [by eapply IH|]. injection Ha as <-. apply evolves_refl.
    + injection H as <-. apply evolves_refl.
  - injection H as <-. apply evolves_refl.
  - injection H as <-. apply evolves_refl.
Qed.

(** ** [uncover]: termination *)

Lemma covered_cons c cells :
  covered (c :: cells) =
  ((if decide (state c = COVERED) then 1 else 0) + covered cells)%nat.
Proof. unfold covered. rewrite filter_cons. by case_decide. Qed.

Lemma evolves_covered cells cells' :
  evolves cells cells' → (covered cells' ≤ covered cells)%nat.
Proof.
  induction 1 as [|c c' l l' Hc _ IH]; [done|].
  rewrite !covered_cons. destruct Hc as (_ & _ & Hst).
  repeat case_decide; try lia.
  exfalso. destruct Hst as [E|[E1 E2]]; [congruence|done].
Qed.

Lemma covered_insert cells i c c' :
  cells !! i = Some c → state c = COVERED → state c' ≠ COVERED →
  (covered (<[i:=c']> cells) + 1 = covered cells)%nat.
Proof.
  revert i. induction cells as [|d cells IH]; intros i Hl Hc Hc'; [done|].
  destruct i as [|i]; simpl in *.
  - injection Hl as ->. rewrite !covered_cons.
    rewrite decide_False, decide_True by done. lia.
  - rewrite !covered_cons. specialize (IH i Hl Hc Hc'). lia.
Qed.

Lemma covered_store cells p c c' :
  cell_at cells p = Some c → state c = COVERED → state c' ≠ COVERED →
  (covered (store cells (index p) c') + 1 = covered cells)%nat.
Proof.
  unfold cell_at. intros [_ Hl]%load_Some. by apply covered_insert.
Qed.

Lemma need_covered cells p c :
  cell_at cells p = Some c → state c = COVERED →
  need width cells p = (2 * covered cells)%nat.
Proof. intros Hc Hst. unfold need, state_at. rewrite Hc. simpl. rewrite Hst. lia. Qed.

Lemma need_le cells p : (need width cells p ≤ 2 * covered cells + 1)%nat.
Proof. unfold need. destruct (state_at cells p) as [[]|]; lia. Qed.

(** With a stack of depth [need cells p] the call returns. *)
Lemma uncover_enough fuel p cells :
  sized cells → in_grid p → (need width cells p ≤ fuel)%nat →
  ∃ cells', uncover width height fuel p cells = Some cells'.
Proof.
  revert p cells. induction fuel as [|fuel IH]; intros p cells Hs Hp Hn.
  - destruct (cell_at_is_Some cells p Hs Hp) as [c Hc].
    unfold need, state_at in Hn. rewrite Hc in Hn. simpl in Hn.
    destruct (state c) eqn:Hst; try lia.
    assert (covered (store cells (index p) (set_state c UNCOVERED)) + 1
            = covered cells)%nat by (by eapply covered_store).
    lia.
  - destruct (cell_at_is_Some cells p Hs Hp) as [c Hc].
    simpl. rewrite Hc. simpl.
    destruct (state c) eqn:Hst; [| |by eexists..].
    + rewrite (need_covered _ _ _ Hc Hst) in Hn.
      destruct (is_mine c) eqn:Hm; [by eexists|].
      case_decide; [|by eexists].
      set (cells1 := store cells (index p) (set_state c UNCOVERED)).
      assert (covered cells1 + 1 = covered cells)%nat as Hcov
        by (by eapply covered_store).
      destruct (for_each_total evolves (uncover width height fuel) (around p) cells1)
        as (cells' & E & _); [apply evolves_refl|apply evolves_trans| |by eexists].
      intros a s1 Ha He.
      destruct (IH a s1) as [s2 E].
      * eapply evolves_sized; [done|]. by apply sized_store.
      * by eapply around_in_grid.
      * pose proof (need_le s1 a). pose proof (evolves_covered _ _ He). lia.
      * exists s2. split; [done|]. by eapply uncover_evolves.
    + unfold need, state_at in Hn. rewrite Hc in Hn. simpl in Hn.
      rewrite Hst in Hn.
      destruct (count_flags_is_Some cells (neighbors c) (around p) Hs)
        as [fr ->]; [apply around_in_grid|]. simpl.
      case_decide; [|by eexists].
      match goal with |- ∃ _, for_each ?b _ _ = _ =>
        destruct (for_each_total evolves b (around p) cells)
          as (cells' & E & _) end;
        [apply evolves_refl|apply evolves_trans| |by eexists].
      intros a s1 Ha He. simpl.
      destruct (cell_at_is_Some s1 a) as [c' Hc'];
        [by eapply evolves_sized|by eapply around_in_grid|].
      rewrite Hc'. simpl. case_decide as Hst'.
      * destruct (IH a s1) as [s2 E].
        -- by eapply evolves_sized.
        -- by eapply around_in_grid.
        -- rewrite (need_covered _ _ _ Hc' Hst').
           pose proof (evolves_covered _ _ He). lia.
        -- exists s2. split; [done|]. by eapply uncover_evolves.
      * exists s1. split; [done|]. apply evolves_refl.
Qed.

(** More stack does not change the result. *)
Lemma for_each_ext_Some {A S} (body body' : A → S → option S) l s s' :
  (∀ a s1 s2, body a s1 = Some s2 → body' a s1 = Some s2) →
  for_each body l s = Some s' → for_each body' l s = Some s'.
Proof.
  intros Hb. revert s. induction l as [|a l IH]; intros s H; simpl in *; [done|].
  destruct (body a s) as [s1|] eqn:E; [|done].
  rewrite (Hb _ _ _ E). by apply IH.
Qed.

Lemma uncover_fuel_mono fuel fuel' p cells cells' :
  (fuel ≤ fuel')%nat →
  uncover width height fuel p cells = Some cells' →
  uncover width height fuel' p cells = Some cells'.
Proof.
  revert fuel' p cells cells'.
  induction fuel as [|fuel IH]; intros fuel' p cells cells' Hle H; [done|].
  destruct fuel' as [|fuel']; [lia|]. simpl in *.
  destruct (cell_at cells p) as [c|]; simpl in *; [|done].
  destruct (state c); try done.
  - destruct (is_mine c); [done|]. case_decide; [|done].
    eapply for_each_ext_Some; [|done].
    intros a s1 s2. apply IH. lia.
  - destruct (count_flags _ _ _ _); simpl in *; [|done].
    case_decide; [|done].
    eapply for_each_ext_Some; [|done].
    intros a s1 s2. simpl. destruct (cell_at s1 a); simpl; [|done].
    case_decide; [|done]. apply IH. lia.
Qed.

(** ** [uncover]: the log of its writes *)

Lemma for_each_fst {A S L} (body : A → S → option S)
    (body_t : A → S * L → option (S * L)) l st :
  (∀ a st, fst <$> body_t a st = body a st.1) →
  fst <$> for_each body_t l st = for_each body l st.1.
Proof.
  intros Hb. revert st. induction l as [|a l IH]; intros st; simpl; [done|].
  rewrite <- Hb. destruct (body_t a st) as [st1|]; simpl; [apply IH|done].
Qed.

Lemma uncover_trace_cells fuel p st :
  fst <$> uncover_trace width height fuel p st
  = uncover width height fuel p st.1.
Proof.
  revert p st. induction fuel as [|fuel IH]; intros p st; simpl; [done|].
  destruct (cell_at st.1 p) as [c|]; simpl; [|done].
  destruct (state c); try done.
  - destruct (is_mine c); [done|]. case_decide; [|done].
    by rewrite (for_each_fst (uncover width height fuel)).
  - destruct (count_flags _ _ _ _); simpl; [|done].
    case_decide; [|done].
    erewrite for_each_fst; [done|].
    intros a st1. simpl. destruct (cell_at st1.1 a); simpl; [|done].
    case_decide; [apply IH|done].
Qed.

Lemma uncover_trace_fuel_mono fuel fuel' p st st' :
  (fuel ≤ fuel')%nat →
  uncover_trace width height fuel p st = Some st' →
  uncover_trace width height fuel' p st = Some st'.
Proof.
  revert fuel' p st st'.
  induction fuel as [|fuel IH]; intros fuel' p st st' Hle H; [done|].
  destruct fuel' as [|fuel']; [lia|]. simpl in *.
  destruct (cell_at st.1 p) as [c|]; simpl in *; [|done].
  destruct (state c); try done.
  - destruct (is_mine c); [done|]. case_decide; [|done].
    eapply for_each_ext_Some; [|done].
    intros a s1 s2. apply IH. lia.
  - destruct (count_flags _ _ _ _); simpl in *; [|done].
    case_decide; [|done].
    eapply for_each_ext_Some; [|done].
    intros a s1 s2. simpl. destruct (cell_at s1.1 a); simpl; [|done].
    case_decide; [|done]. apply IH. lia.
Qed.

(** The log of events is a ghost: without it [uncover_events] is
    [uncover], and with its writes alone it is [uncover_trace]. *)
Lemma for_each_map {A S T} (f : T → S) (body : A → S → option S)
    (body_t : A → T → option T) l st :
  (∀ a st, f <$> body_t a st = body a (f st)) →
  f <$> for_each body_t l st = for_each body l (f st).
Proof.
  intros Hb. revert st. induction l as [|a l IH]; intros st; simpl; [done|].
  rewrite <- Hb. destruct (body_t a st) as [st1|]; simpl; [apply IH|done].
Qed.

Lemma uncover_events_cells fuel p st :
  fst <$> uncover_events width height fuel p st
  = uncover width height fuel p st.1.
Proof.
  revert p st. induction fuel as [|fuel IH]; intros p st; simpl; [done|].
  destruct (cell_at st.1 p) as [c|]; simpl; [|done].
  destruct (state c); try done.
  - destruct (is_mine c); [done|]. case_decide; [|done].
    erewrite for_each_fst; [done|]. intros a st1. apply (IH a (st1.1, _)).
  - destruct (count_flags _ _ _ _); simpl; [|done].
    case_decide; [|done].
    erewrite for_each_fst; [done|].
    intros a st1. simpl. destruct (cell_at st1.1 a); simpl; [|done].
    case_decide; [apply (IH a (st1.1, _))|done].
Qed.

Lemma writes_snoc log e :
  writes (log ++ [e])
  = writes log ++ match e with Write p => [p] | _ => [] end.
Proof. unfold writes. rewrite omap_app. by destruct e. Qed.

Lemma uncover_events_writes fuel p st :
  (λ st, (st.1, writes st.2)) <$> uncover_events width height fuel p st
  = uncover_trace width height fuel p (st.1, writes st.2).
Proof.
  revert p st. induction fuel as [|fuel IH]; intros p st; simpl; [done|].
  destruct (cell_at st.1 p) as [c|]; simpl; [|done].
  destruct (state c); try done.
  - destruct (is_mine c); [by simpl; rewrite writes_snoc|].
    case_decide; [|by simpl; rewrite writes_snoc].
    erewrite (for_each_map (λ st, (st.1, writes st.2)));
      [by simpl; rewrite writes_snoc|].
    intros a st1. rewrite IH. simpl.
    by rewrite writes_snoc, app_nil_r.
  - destruct (count_flags _ _ _ _); simpl; [|done].
    case_decide; [|done].
    erewrite (for_each_map (λ st, (st.1, writes st.2))); [done|].
    intros a st1. simpl. destruct (cell_at st1.1 a); simpl; [|done].
    case_decide; [|done]. rewrite IH. simpl.
    by rewrite writes_snoc, app_nil_r.
Qed.

Lemma state_at_evolves cells cells' q :
  evolves cells cells' → state_at cells q ≠ Some COVERED →
  state_at cells' q ≠ Some COVERED.
Proof.
  unfold state_at. intros He Hq Hq'.
  destruct (cell_at cells' q) as [c'|] eqn:Hc'; [|done].
  destruct (evolves_cell_at_rev _ _ _ _ He Hc') as (c & Hc & _ & _ & Hst).
  rewrite Hc in Hq. simpl in *. injection Hq' as Hq'.
  destruct Hst as [E|[E1 E2]]; [congruence|].
  rewrite Hq' in E2. by destruct (is_mine c).
Qed.

Lemma state_at_evolves_rev cells cells' q :
  evolves cells cells' → state_at cells' q = Some COVERED →
  state_at cells q = Some COVERED.
Proof.
  intros He Hq'. destruct (decide (state_at cells q = Some COVERED)); [done|].
  by destruct (state_at_evolves _ _ q He).
Qed.

Lemma logged_refl st : logged width height st st.
Proof.
  split; [apply evolves_refl|]. exists []. rewrite app_nil_r.
  split; [done|]. split; [apply NoDup_nil_2|]. split; [simpl; lia|].
  intros q. rewrite elem_of_nil. tauto.
Qed.

Lemma logged_trans st1 st2 st3 :
  logged width height st1 st2 → logged width height st2 st3 →
  logged width height st1 st3.
Proof.
  intros (He & new & E & Hnd & Hcov & Hin) (He' & new' & E' & Hnd' & Hcov' & Hin').
  split; [by eapply evolves_trans|].
  exists (new ++ new'). split; [by rewrite E', E, app_assoc|].
  split; [|split].
  - apply NoDup_app. split; [done|]. split; [|done].
    intros q Hq Hq'. apply Hin in Hq. apply Hin' in Hq'. tauto.
  - rewrite length_app. lia.
  - intros q. rewrite elem_of_app, Hin, Hin'. split.
    + intros [(Hg & H1 & H2)|(Hg & H2 & H3)].
      * split; [done|]. split; [done|]. by eapply state_at_evolves.
      * split; [done|]. split; [by eapply state_at_evolves_rev|done].
    + intros (Hg & H1 & H3).
      destruct (decide (state_at st2.1 q = Some COVERED)); tauto.
Qed.

Lemma logged_store st p c s :
  in_grid p → cell_at st.1 p = Some c → state c = COVERED →
  s = (if is_mine c then EXPLODED else UNCOVERED) →
  logged width height st (store st.1 (index p) (set_state c s), st.2 ++ [p]).
Proof.
  intros Hp Hc Hst ->. split; simpl.
  { eapply evolves_store; [done|]. unfold cell_evolves. simpl. tauto. }
  exists [p]. split; [done|]. split; [apply NoDup_singleton|].
  assert (state (set_state c (if is_mine c then EXPLODED else UNCOVERED))
          ≠ COVERED) as Hne by (simpl; by destruct (is_mine c)).
  split. { simpl. by eapply covered_store. }
  intros q. rewrite list_elem_of_singleton. unfold state_at. split.
  - intros ->. split; [done|].
    rewrite Hc, (cell_at_store_eq _ _ _ _ Hc). simpl.
    split; [by rewrite Hst|]. intros [= E]. by destruct (is_mine c).
  - intros (Hq & H1 & H2). destruct (decide (q = p)) as [|Hne']; [done|].
    rewrite cell_at_store_ne in H2 by done. done.
Qed.

Lemma uncover_trace_logged fuel p st st' :
  in_grid p → uncover_trace width height fuel p st = Some st' →
  logged width height st st'.
Proof.
  revert p st st'. induction fuel as [|fuel IH]; intros p st st' Hp H;
    simpl in H; [done|].
  destruct (cell_at st.1 p) as [c|] eqn:Hc; simpl in H; [|done].
  destruct (state c) eqn:Hst.
  - destruct (is_mine c) eqn:Hm.
    + injection H as <-. apply logged_store; [done..|by rewrite Hm].
    + assert (logged width height st
                (store st.1 (index p) (set_state c UNCOVERED), st.2 ++ [p]))
        as Hl by (apply logged_store; [done..|by rewrite Hm]).
      case_decide; [|by injection H as <-].
      eapply logged_trans; [done|].
      eapply (for_each_inv (logged width height) (λ _ _, True)); [..|done].
      * apply logged_refl.
      * apply logged_trans.
      * done.
      * intros a s1 s2 Ha _ E. split; [|done].
        eapply IH; [|done]. by eapply around_in_grid.
  - destruct (count_flags _ _ _ _) as [fr|]; simpl in H; [|done].
    case_decide; [|injection H as <-; apply logged_refl].
    eapply (for_each_inv (logged width height) (λ _ _, True)); [..|done].
    + apply logged_refl.
    + apply logged_trans.
    + done.
    + intros a s1 s2 Ha _ E. split; [|done]. simpl in E.
      destruct (cell_at s1.1 a) as [c'|]; simpl in E; [|done].
      case_decide; [|injection E as <-; apply logged_refl].
      eapply IH; [|done]. by eapply around_in_grid.
  - injection H as <-. apply logged_refl.
  - injection H as <-. apply logged_refl.
Qed.

(** ** [flag] *)

Lemma set_state_same c : set_state c (state c) = c.
Proof. by destruct c. Qed.

Lemma flag_spec cells p c :
  cell_at cells p = Some c →
  flag width p cells = Some (store cells (index p) (set_state c (toggled (state c)))).
Proof.
  intros Hc. unfold flag. rewrite Hc. simpl.
  destruct (state c) eqn:Hst; simpl; try done.
  - rewrite <- Hst, set_state_same. by rewrite store_same.
  - rewrite <- Hst, set_state_same. by rewrite store_same.
Qed.



(** ** The scan of [draw] *)

Lemma elem_of_all_cells q : q ∈ all_cells ↔ in_grid q.
Proof.
  unfold all_cells, in_grid. destruct q as [i j].
  rewrite list_elem_of_bind. simpl. split.
  - intros (y & Hy & Hin). apply list_elem_of_bind in Hy as (x & Hx & Hin').
    apply list_elem_of_singleton in Hx. injection Hx as -> ->.
    apply elem_of_seqZ in Hin, Hin'. lia.
  - intros H. exists j. split; [|apply elem_of_seqZ; lia].
    apply list_elem_of_bind. exists i. split; [by left|].
    apply elem_of_seqZ. lia.
Qed.

Lemma NoDup_all_cells : NoDup all_cells.
Proof.
  unfold all_cells. apply NoDup_bind; [| |apply NoDup_seqZ].
  - intros y1 y2 q _ _ (x1 & Hq1 & _)%list_elem_of_bind
      (x2 & Hq2 & _)%list_elem_of_bind.
    apply list_elem_of_singleton in Hq1, Hq2. congruence.
  - intros y _. apply NoDup_bind; [| |apply NoDup_seqZ].
    + intros x1 x2 q _ _ Hq1%list_elem_of_singleton Hq2%list_elem_of_singleton.
      congruence.
    + intros x _. apply NoDup_singleton.
Qed.

Lemma draw_cell_is_Some cells q st :
  sized cells → in_grid q → is_Some (draw_cell width cells q st).
Proof.
  intros Hs Hq. destruct (cell_at_is_Some cells q Hs Hq) as [c Hc].
  unfold draw_cell. rewrite Hc. simpl. by eexists.
Qed.

Lemma draw_cells_is_Some cells l st :
  sized cells → (∀ q, q ∈ l → in_grid q) →
  is_Some (for_each (draw_cell width cells) l st).
Proof.
  intros Hs. revert st. induction l as [|q l IH]; intros st Hl; simpl.
  - by eexists.
  - destruct (draw_cell_is_Some cells q st) as [st1 ->]; [done|apply Hl; left|].
    apply IH. intros q' Hq'. apply Hl. by right.
Qed.

(** [gameover] is raised by the first [EXPLODED] cell of the scan and
    stays up. *)
Lemma draw_cells_gameover cells l st st' :
  for_each (draw_cell width cells) l st = Some st' →
  gameover st'.1 = true ↔
  gameover st.1 = true ∨ ∃ q, q ∈ l ∧ state_at cells q = Some EXPLODED.
Proof.
  revert st. induction l as [|q l IH]; intros st H; simpl in H.
  - injection H as <-. split; [tauto|]. intros [?|(q & Hq & _)]; [done|].
    by apply elem_of_nil in Hq.
  - destruct (draw_cell width cells q st) as [st1|] eqn:E; [|done].
    rewrite (IH st1 H). unfold draw_cell in E. unfold state_at.
    destruct (cell_at cells q) as [c|] eqn:Hc; simpl in E; [|done].
    injection E as <-. simpl.
    match goal with |- gameover ?v = true ∨ _ ↔ _ =>
      assert (gameover v = true ↔ gameover st.1 = true ∨ state c = EXPLODED)
        as -> by (destruct (state c); simpl; split; (tauto || intros [?|?]; done))
    end.
    split.
    + intros [[?|He]|(q' & Hq' & He')]; [by left| |].
      * right. exists q. split; [left|]. rewrite Hc. simpl. by rewrite He.
      * right. exists q'. split; [by right|done].
    + intros [?|(q' & [->|Hq']%elem_of_cons & He')]; [tauto| |].
      * left. right. rewrite Hc in He'. simpl in He'. congruence.
      * right. eauto.
Qed.

(** After the last iteration row [height+1] reads "Game Over" exactly when
    [gameover] is up. *)
Lemma draw_cells_lost cells l st st' :
  l ≠ [] → for_each (draw_cell width cells) l st = Some st' →
  row_below st'.2 = GameOver ↔ gameover st'.1 = true.
Proof.
  intros Hne H. destruct l as [|q l _] using rev_ind; [done|]. clear Hne.
  rewrite for_each_app in H.
  destruct (for_each (draw_cell width cells) l st) as [st1|]; [|done].
  simpl in H. destruct (draw_cell width cells q st1) as [st2|] eqn:E; [|done].
  injection H as <-. unfold draw_cell in E.
  destruct (cell_at cells q) as [c|]; simpl in E; [|done].
  injection E as <-. simpl.
  destruct (state c); simpl; destruct (gameover st1.1); simpl;
    try case_decide; simpl; split; done.
Qed.

(** ** [uncover]: the chord *)

Lemma count_flags_spec cells start l fr :
  count_flags width cells start l = Some fr →
  fr = start - Z.of_nat (length (filter (λ q, state_at cells q = Some FLAGGED) l)).
Proof.
  unfold count_flags. revert start.
  induction l as [|q l IH]; intros start H; simpl in H.
  - injection H as <-. simpl. lia.
  - destruct (cell_at cells q) as [c|] eqn:Hc; simpl in H; [|done].
    apply IH in H. rewrite filter_cons.
    assert (state_at cells q = Some (state c)) as Hq
      by (unfold state_at; by rewrite Hc).
    destruct (decide (state c = FLAGGED)) as [E|E].
    + rewrite decide_True by congruence. simpl length. lia.
    + rewrite decide_False by congruence. lia.
Qed.

Lemma uncover_reveal fuel p cells cells' :
  sized cells → in_grid p →
  uncover width height fuel p cells = Some cells' →
  reveal width height p cells = Some cells'.
Proof.
  intros Hs Hp H. unfold reveal.
  destruct (uncover_enough (2 * covered cells + 1) p cells Hs Hp (need_le _ _))
    as [cells'' H'].
  rewrite H'. f_equal.
  apply (uncover_fuel_mono _ (fuel `max` (2 * covered cells + 1))) in H; [|lia].
  apply (uncover_fuel_mono _ (fuel `max` (2 * covered cells + 1))) in H'; [|lia].
  congruence.
Qed.

Lemma reveal_uncover fuel p cells cells' :
  sized cells → in_grid p → (need width cells p ≤ fuel)%nat →
  reveal width height p cells = Some cells' →
  uncover width height fuel p cells = Some cells'.
Proof.
  intros Hs Hp Hn H. destruct (uncover_enough fuel p cells Hs Hp Hn) as [cells'' H'].
  rewrite <- H. rewrite H'. symmetry. by eapply uncover_reveal.
Qed.


(** A call on a [COVERED] cell takes it out of [COVERED]. *)
Lemma uncover_leaves_covered fuel p cells cells' :
  uncover width height fuel p cells = Some cells' →
  state_at cells' p ≠ Some COVERED.
Proof.
  intros H. destruct (decide (state_at cells p = Some COVERED)) as [Hcov|Hcov].
  2: { eapply state_at_evolves; [|done]. by eapply uncover_evolves. }
  destruct fuel as [|fuel]; simpl in H; [done|].
  unfold state_at in Hcov.
  destruct (cell_at cells p) as [c|] eqn:Hc; simpl in *; [|done].
  injection Hcov as Hst. rewrite Hst in H.
  set (s := if is_mine c then EXPLODED else UNCOVERED).
  assert (state_at (store cells (index p) (set_state c s)) p ≠ Some COVERED)
    as Hne.
  { unfold state_at. rewrite (cell_at_store_eq _ _ _ _ Hc). simpl.
    unfold s. by destruct (is_mine c). }
  unfold s in Hne. destruct (is_mine c).
  - by injection H as <-.
  - case_decide; [|by injection H as <-].
    eapply state_at_evolves; [|done].
    eapply (for_each_inv evolves (λ _ _, True)); [..|done].
    + apply evolves_refl.
    + apply evolves_trans.
    + done.
    + intros a s1 s2 _ _ Ha. split; [by eapply uncover_evolves|done].
Qed.


(** ** [calculate_neighbors] *)

Lemma count_mines_spec cells l n :
  count_mines width cells l = Some n →
  n = Z.of_nat (length (filter (mine_at width cells) l)).
Proof.
  unfold count_mines.
  assert (∀ start, for_each (λ q num_neighbors,
              c' ← cell_at cells q;
              Some (if is_mine c' then num_neighbors + 1 else num_neighbors))
           l start = Some n →
          n = start + Z.of_nat (length (filter (mine_at width cells) l))) as H.
  { induction l as [|q l IH]; intros start H; simpl in H.
    - injection H as <-. simpl. lia.
    - destruct (cell_at cells q) as [c|] eqn:Hc; simpl in H; [|done].
      apply IH in H. rewrite filter_cons.
      assert (mine_at width cells q ↔ is_mine c = true) as Hq
        by (unfold mine_at; rewrite Hc; simpl; split; congruence).
      destruct (is_mine c).
      + rewrite decide_True by tauto. simpl length. lia.
      + rewrite decide_False by (rewrite Hq; done). lia. }
  intros H0. apply H in H0. lia.
Qed.

Lemma count_mines_is_Some cells l :
  sized cells → (∀ q, q ∈ l → in_grid q) →
  is_Some (count_mines width cells l).
Proof.
  intros Hs. unfold count_mines. generalize 0.
  induction l as [|q l IH]; intros start Hl; simpl; [by eexists|].
  destruct (cell_at_is_Some cells q) as [c Hc]; [done|apply Hl; left|].
  rewrite Hc. simpl. apply IH. intros q' Hq'. apply Hl. by right.
Qed.

(** The mines counted by the loops around [p] are the mines of the
    adjacent grid cells. *)
Lemma around_adjacent_mines cells p :
  Z.of_nat (length (filter (mine_at width cells) (around p)))
  = adjacent_mines width height cells p.
Proof.
  unfold adjacent_mines. f_equal. apply Permutation_length.
  apply NoDup_Permutation.
  - apply NoDup_filter, NoDup_around.
  - apply NoDup_filter, NoDup_all_cells.
  - intros q. rewrite !list_elem_of_filter, elem_of_around, elem_of_all_cells.
    tauto.
Qed.

Lemma length_around p : (length (around p) ≤ 8)%nat.
Proof.
  unfold around.
  assert (p ∈ window p) as Hin by (apply elem_of_window; lia).
  pose proof (length_filter_lt
    (λ q, in_grid q ∧ ¬ (q.1 = p.1 ∧ q.2 = p.2)) (window p) p Hin) as Hlt.
  assert (length (window p) = 9%nat) as Hlen by done.
  rewrite Hlen in Hlt. apply Nat.lt_succ_r, Hlt. tauto.
Qed.

Lemma adjacent_mines_bounds cells p :
  0 ≤ adjacent_mines width height cells p ≤ 8.
Proof.
  rewrite <- around_adjacent_mines.
  pose proof (length_filter (mine_at width cells) (around p)).
  pose proof (length_around p). lia.
Qed.

Lemma same_mines_refl cells : same_mines_and_states cells cells.
Proof. apply Forall_Forall2_diag, Forall_forall. done. Qed.

Lemma same_mines_trans cells1 cells2 cells3 :
  same_mines_and_states cells1 cells2 → same_mines_and_states cells2 cells3 →
  same_mines_and_states cells1 cells3.
Proof.
  unfold same_mines_and_states. intros H12. revert cells3.
  induction H12 as [|c1 c2 l1 l2 Hc _ IH]; intros cells3 H23.
  - by inversion H23.
  - inversion H23 as [|? c3 ? l3 Hc' H23']; subst.
    constructor; [|by apply IH]. destruct Hc, Hc'. split; congruence.
Qed.

Lemma same_mines_cell_at cells cells' p c :
  same_mines_and_states cells cells' → cell_at cells p = Some c →
  ∃ c', cell_at cells' p = Some c' ∧ is_mine c' = is_mine c ∧ state c' = state c.
Proof.
  unfold cell_at. intros He [H0 Hl]%load_Some.
  destruct (Forall2_lookup_l _ _ _ _ _ He Hl) as (c' & Hl' & Hc).
  exists c'. split; [|done]. by apply load_Some.
Qed.

Lemma same_mines_sized cells cells' :
  same_mines_and_states cells cells' → sized cells → sized cells'.
Proof.
  unfold sized. intros H%Forall2_length. by rewrite <- H.
Qed.

Lemma same_mines_mine_at cells cells' q :
  same_mines_and_states cells cells' →
  mine_at width cells q ↔ mine_at width cells' q.
Proof.
  intros He. unfold mine_at.
  destruct (cell_at cells q) as [c|] eqn:Hc.
  - destruct (same_mines_cell_at _ _ _ _ He Hc) as (c' & -> & Hm & _).
    simpl. by rewrite Hm.
  - destruct (cell_at cells' q) as [c'|] eqn:Hc'; [|done]. exfalso.
    unfold cell_at in *. apply load_Some in Hc' as [H0 Hl].
    destruct (Forall2_lookup_r _ _ _ _ _ He Hl) as (c & Hl' & _).
    unfold load in Hc. rewrite decide_True in Hc by done. congruence.
Qed.

Lemma same_mines_adjacent_mines cells cells' p :
  same_mines_and_states cells cells' →
  adjacent_mines width height cells p = adjacent_mines width height cells' p.
Proof.
  intros He. unfold adjacent_mines. do 2 f_equal.
  apply list_filter_iff. intros q. by rewrite (same_mines_mine_at _ _ q He).
Qed.

Lemma same_mines_store cells p c n :
  cell_at cells p = Some c →
  same_mines_and_states cells (store cells (index p) (set_neighbors c n)).
Proof.
  unfold cell_at. intros [H0 Hl]%load_Some.
  unfold same_mines_and_states, store.
  rewrite <- (list_insert_id cells (Z.to_nat (index p)) c) at 1 by done.
  apply Forall2_insert; [apply same_mines_refl|done].
Qed.

Lemma calculate_neighbors_spec cells cells' :
  calculate_neighbors width height cells = Some cells' →
  same_mines_and_states cells cells' ∧ counts_ok width height cells'.
Proof.
  intros H. unfold calculate_neighbors in H.
  set (good s q := ∃ c, cell_at s q = Some c
                        ∧ neighbors c = adjacent_mines width height cells q).
  apply (for_each_inv
           (λ s1 s2, same_mines_and_states s1 s2
                     ∧ ∀ q, in_grid q → good s1 q → good s2 q)
           (λ q s, in_grid q → good s q)) in H.
  - destruct H as [[Hsame _] Hgood]. split; [done|].
    intros p c Hp Hc. destruct (Hgood p) as (c' & Hc' & Hn);
      [by apply elem_of_all_cells|done|].
    rewrite <- (same_mines_adjacent_mines _ _ _ Hsame). congruence.
  - intros s. split; [apply same_mines_refl|done].
  - intros s1 s2 s3 [H12 G12] [H23 G23].
    split; [by eapply same_mines_trans|]. intros q Hq Hg. by apply G23, G12.
  - intros a s1 s2 Hg [_ G] Ha. by apply G, Hg.
  - intros a s1 s2 Ha%elem_of_all_cells [Hsame _] E.
    destruct (count_mines width s1 (around a)) as [n|] eqn:Hn; simpl in E; [|done].
    destruct (cell_at s1 a) as [c|] eqn:Hc; simpl in E; [|done].
    injection E as <-.
    apply count_mines_spec in Hn. rewrite around_adjacent_mines in Hn.
    rewrite <- (same_mines_adjacent_mines _ _ _ Hsame) in Hn.
    assert (good (store s1 (index a) (set_neighbors c n)) a) as Hgood.
    { eexists. split; [by eapply cell_at_store_eq|done]. }
    split; [|done]. split; [by apply same_mines_store|].
    intros q Hq Hg. destruct (decide (q = a)) as [->|Hne]; [done|].
    unfold good. by rewrite cell_at_store_ne.
Qed.

Lemma calculate_neighbors_is_Some cells :
  sized cells → is_Some (calculate_neighbors width height cells).
Proof.
  intros Hs. unfold calculate_neighbors.
  match goal with |- is_Some (for_each ?b _ _) =>
    destruct (for_each_total same_mines_and_states b all_cells cells)
      as (cells' & E & _) end;
    [apply same_mines_refl|apply same_mines_trans| |by eexists].
  intros a s1 Ha%elem_of_all_cells Hsame. simpl.
  assert (sized s1) as Hs1 by (by eapply same_mines_sized).
  destruct (count_mines_is_Some s1 (around a) Hs1) as [n ->];
    [apply around_in_grid|].
  destruct (cell_at_is_Some s1 a Hs1 Ha) as [c Hc]. rewrite Hc. simpl.
  eexists. split; [done|]. by apply same_mines_store.
Qed.

(** ** [uncover]: the cascade *)


Lemma mine_at_evolves cells cells' p :
  evolves cells cells' → mine_at width cells p ↔ mine_at width cells' p.
Proof.
  intros He. unfold mine_at.
  destruct (cell_at cells p) as [c|] eqn:Hc.
  - destruct (evolves_cell_at _ _ _ _ He Hc) as (c' & -> & Hm & _).
    simpl. by rewrite Hm.
  - destruct (cell_at cells' p) as [c'|] eqn:Hc'; [|done].
    destruct (evolves_cell_at_rev _ _ _ _ He Hc') as (c & Hc2 & _). congruence.
Qed.
















(** Where the counts are right, a cell without adjacent mines has no mine
    among its neighbours. *)
Lemma zero_at_no_mine cells p q :
  counts_ok width height cells → in_grid p → zero_at width cells p →
  q ∈ around p → ¬ mine_at width cells q.
Proof.
  intros Hok Hp Hz Hq Hm. unfold zero_at in Hz.
  destruct (cell_at cells p) as [c|] eqn:Hc; [|done].
  simpl in Hz. injection Hz as Hz.
  rewrite (Hok p c Hp Hc), <- around_adjacent_mines in Hz.
  assert (q ∈ filter (mine_at width cells) (around p)) as Hin
    by (by apply list_elem_of_filter).
  destruct (filter (mine_at width cells) (around p)); [|done].
  by apply elem_of_nil in Hin.
Qed.





(** ** The operations of the board *)


(** C7. From any board and any cell of the grid [uncover] returns: a stack
    of depth [need cells p], at most [2 * width * height + 1], is enough and
    a deeper one gives the same result.  During the call every cell leaves
    [COVERED] at most once: the log of the writes to [state] has no
    duplicate, lists exactly the cells that were [COVERED] before and are
    not after, and is no longer than the number of [COVERED] cells. *)
Theorem uncover_terminates_once cells p :
  sized cells → in_grid p →
  ∃ cells' log,
    reveal width height p cells = Some cells' ∧
    (need width cells p ≤ 2 * length cells + 1)%nat ∧
    (∀ fuel, (need width cells p ≤ fuel)%nat →
       uncover_trace width height fuel p (cells, []) = Some (cells', log) ∧
       uncover width height fuel p cells = Some cells') ∧
    NoDup log ∧
    (length log ≤ covered cells)%nat ∧
    (∀ q, q ∈ log ↔
          in_grid q ∧ state_at cells q = Some COVERED ∧
          state_at cells' q ≠ Some COVERED).
Proof.
  intros Hs Hp.
  destruct (uncover_enough (need width cells p) p cells Hs Hp (le_n _))
    as [cells' Hu].
  pose proof (uncover_trace_cells (need width cells p) p (cells, [])) as Ht.
  simpl in Ht. rewrite Hu in Ht.
  destruct (uncover_trace width height (need width cells p) p (cells, []))
    as [[cells'' log]|] eqn:Htr; [|done].
  simpl in Ht. injection Ht as ->.
  destruct (uncover_trace_logged _ _ _ _ Hp Htr)
    as (_ & new & E & Hnd & Hcov & Hin). simpl in *. subst new.
  exists cells', log. split_and!; try done.
  - by eapply uncover_reveal.
  - pose proof (need_le cells p).
    pose proof (length_filter (λ c, state c = COVERED) cells).
    unfold covered in *. lia.
  - intros fuel Hfuel. split.
    + by eapply uncover_trace_fuel_mono.
    + by eapply uncover_fuel_mono.
  - lia.
Qed.

Variable num_mines : Z.

(** C4. [uncover] on a [COVERED] mine only sets that cell to [EXPLODED]:
    no other cell of the grid changes, whatever the rest of the board is,
    and the next [draw] writes "Game Over" on the status row. *)
Theorem uncover_mine_explodes cells p c scr :
  sized cells → in_grid p →
  cell_at cells p = Some c → state c = COVERED → is_mine c = true →
  ∃ cells' scr',
    reveal width height p cells = Some cells' ∧
    (∀ fuel, uncover width height (S fuel) p cells = Some cells') ∧
    cell_at cells' p = Some (set_state c EXPLODED) ∧
    (∀ q, in_grid q → q ≠ p → cell_at cells' q = cell_at cells q) ∧
    draw width height num_mines cells' scr = Some scr' ∧
    reports_lost scr'.
Proof.
  intros Hs Hp Hc Hst Hm.
  set (cells' := store cells (index p) (set_state c EXPLODED)).
  assert (∀ fuel, uncover width height (S fuel) p cells = Some cells') as Hu.
  { intros fuel. simpl. rewrite Hc. simpl. by rewrite Hst, Hm. }
  assert (sized cells') as Hs' by (by apply sized_store).
  assert (cell_at cells' p = Some (set_state c EXPLODED)) as Hc'
    by (by eapply cell_at_store_eq).
  destruct (draw_cells_is_Some cells' all_cells
              (DrawVars false num_mines (height * width - num_mines), scr) Hs')
    as [[v scr'] Hd]; [by intros q ?%elem_of_all_cells|].
  exists cells', scr'. split_and!; try done.
  - unfold reveal. replace (2 * covered cells + 1)%nat
      with (S (2 * covered cells)) by lia. apply Hu.
  - intros q Hq Hne. by apply cell_at_store_ne.
  - unfold draw, draw_loop. by rewrite Hd.
  - unfold reports_lost.
    assert (all_cells ≠ []) as Hne.
    { intros E. apply elem_of_all_cells in Hp. rewrite E in Hp.
      by apply elem_of_nil in Hp. }
    apply (draw_cells_lost _ _ _ _ Hne Hd). simpl.
    apply (draw_cells_gameover _ _ _ _ Hd). right. exists p.
    split; [by apply elem_of_all_cells|].
    unfold state_at. by rewrite Hc'.
Qed.


(** C6. [calculate_neighbors] returns, changes neither mines nor states,
    and leaves in every cell of the grid the number of mines among the
    grid cells adjacent to it, a number between 0 and 8; cells beyond the
    edge do not exist and are not counted. *)
Theorem calculate_neighbors_counts cells :
  sized cells →
  ∃ cells',
    calculate_neighbors width height cells = Some cells' ∧
    same_mines_and_states cells cells' ∧
    ∀ p c, in_grid p → cell_at cells' p = Some c →
           neighbors c = adjacent_mines width height cells' p ∧
           0 ≤ neighbors c ≤ 8.
Proof.
  intros Hs. destruct (calculate_neighbors_is_Some cells Hs) as [cells' H].
  destruct (calculate_neighbors_spec _ _ H) as [Hsame Hok].
  exists cells'. split_and!; try done.
  intros p c Hp Hc. rewrite (Hok p c Hp Hc).
  split; [done|]. apply adjacent_mines_bounds.
Qed.


(** ** [generate_mines] *)

Lemma list_pair_ind {A} (P : list A → Prop) :
  P [] → (∀ a, P [a]) → (∀ a b l, P l → P (a :: b :: l)) → ∀ l, P l.
Proof.
  intros H0 H1 H2 l. assert (P l ∧ ∀ a, P (a :: l)) as [? _]; [|done].
  induction l as [|b l [IH1 IH2]]; split; auto.
Qed.

Lemma mines_cons c cells :
  mines (c :: cells) = ((if is_mine c then 1 else 0) + mines cells)%nat.
Proof. unfold mines. rewrite filter_cons. by destruct (is_mine c). Qed.

Lemma mines_insert cells i c :
  cells !! i = Some c → is_mine c = false →
  mines (<[i:=set_mine c]> cells) = S (mines cells).
Proof.
  revert i. induction cells as [|d cells IH]; intros i Hl Hc; [done|].
  destruct i as [|i]; simpl in *.
  - injection Hl as ->. rewrite !mines_cons. simpl. by rewrite Hc.
  - rewrite !mines_cons. by rewrite (IH i Hl Hc).
Qed.

Lemma mines_none cells :
  Forall (λ c, is_mine c = false) cells → mines cells = 0%nat.
Proof.
  induction 1 as [|c cells Hc _ IH]; [done|].
  by rewrite mines_cons, Hc, IH.
Qed.

Lemma same_states_refl cells : same_states_and_counts cells cells.
Proof. apply Forall_Forall2_diag, Forall_forall. done. Qed.

Lemma same_states_trans cells1 cells2 cells3 :
  same_states_and_counts cells1 cells2 → same_states_and_counts cells2 cells3 →
  same_states_and_counts cells1 cells3.
Proof.
  unfold same_states_and_counts. intros H12. revert cells3.
  induction H12 as [|c1 c2 l1 l2 Hc _ IH]; intros cells3 H23.
  - by inversion H23.
  - inversion H23 as [|? c3 ? l3 Hc' H23']; subst.
    constructor; [|by apply IH]. destruct Hc, Hc'. split; congruence.
Qed.

Lemma same_states_store cells p c :
  cell_at cells p = Some c →
  same_states_and_counts cells (store cells (index p) (set_mine c)).
Proof.
  unfold cell_at. intros [H0 Hl]%load_Some.
  unfold same_states_and_counts, store.
  rewrite <- (list_insert_id cells (Z.to_nat (index p)) c) at 1 by done.
  apply Forall2_insert; [apply same_states_refl|done].
Qed.

Lemma generate_trace_placed rs start cells0 i st st' :
  0 < width → 0 < height → in_grid start → i ≤ num_mines →
  placed start cells0 i st →
  generate_trace width height num_mines rs start i st = Some st' →
  placed start cells0 num_mines st'.
Proof.
  intros Hw Hh Hstart. revert i st.
  induction rs as [|r|r1 r2 rs IH] using list_pair_ind; intros i st Hi Hpl H;
    simpl in H.
  - case_decide; [done|]. injection H as <-.
    by replace num_mines with i by lia.
  - case_decide; [done|]. injection H as <-.
    by replace num_mines with i by lia.
  - case_decide as Hlt.
    2: { injection H as <-. by replace num_mines with i by lia. }
    set (x := Z.rem (Z.of_N r1) width) in *.
    set (y := Z.rem (Z.of_N r2) height) in *.
    assert (in_grid (x, y)) as Hxy.
    { unfold in_grid, x, y. simpl.
      pose proof (Z.rem_bound_pos (Z.of_N r1) width).
      pose proof (Z.rem_bound_pos (Z.of_N r2) height). lia. }
    case_decide as Hne; [|by eapply IH].
    destruct (cell_at st.1 (x, y)) as [c|] eqn:Hc; simpl in H; [|done].
    destruct (is_mine c) eqn:Hm; [by eapply IH|].
    eapply IH; [| |done]; [lia|].
    destruct Hpl as (Hsame & Hmines & Hlen & Hnd & Hin & Hmine). simpl.
    assert ((x, y) ∉ st.2) as Hfresh.
    { intros Hel. apply Hmine in Hel; [|done].
      unfold mine_at in Hel. rewrite Hc in Hel. simpl in Hel. congruence. }
    split_and!; cbn [fst snd].
    + eapply same_states_trans; [done|]. by apply same_states_store.
    + unfold store. unfold cell_at in Hc.
      apply load_Some in Hc as [_ Hl].
      erewrite mines_insert; [lia|exact Hl|done].
    + rewrite length_app. simpl. lia.
    + apply NoDup_app. split; [done|]. split; [|apply NoDup_singleton].
      intros q Hq ->%list_elem_of_singleton. done.
    + intros q [Hq| ->%list_elem_of_singleton]%elem_of_app; [by apply Hin|].
      split; [done|]. intros E. apply Hne. by rewrite <- E.
    + intros q Hq. rewrite elem_of_app, list_elem_of_singleton.
      destruct (decide (q = (x, y))) as [->|Hq'].
      * unfold mine_at. rewrite (cell_at_store_eq _ _ _ _ Hc). simpl. tauto.
      * unfold mine_at. rewrite cell_at_store_ne by done.
        fold (mine_at width st.1 q). rewrite (Hmine q Hq). tauto.
Qed.

Lemma generate_trace_loop rs start i st :
  fst <$> generate_trace width height num_mines rs start i st
  = fst <$> generate_loop width height num_mines rs start i st.1.
Proof.
  revert i st.
  induction rs as [|r|r1 r2 rs IH] using list_pair_ind; intros i st; simpl.
  - by case_decide.
  - by case_decide.
  - case_decide; [|done]. case_decide; [|apply IH].
    destruct (cell_at st.1 _) as [c|]; simpl; [|done].
    destruct (is_mine c); apply IH.
Qed.

Lemma length_bind_const {A B} (f : A → list B) (l : list A) k :
  (∀ a, length (f a) = k) → length (l ≫= f) = (length l * k)%nat.
Proof.
  intros Hf. induction l as [|a l IH]; [done|].
  rewrite bind_cons, length_app, Hf, IH. simpl. lia.
Qed.

Lemma length_all_cells :
  length all_cells = (Z.to_nat height * Z.to_nat width)%nat.
Proof.
  unfold all_cells.
  rewrite (length_bind_const _ _ (Z.to_nat width)), length_seqZ; [done|].
  intros y. rewrite (length_bind_const _ _ 1%nat), length_seqZ; [lia|done].
Qed.

(** Enough cells other than [start] to hold the mines. *)
Lemma free_cells start :
  in_grid start →
  Z.of_nat (length (filter (λ q, q ≠ start) all_cells)) = height * width - 1.
Proof.
  intros Hstart.
  pose proof (filter_app_complement (λ q, q ≠ start) all_cells) as Hperm.
  apply Permutation_length in Hperm. rewrite length_app in Hperm.
  assert (filter (λ q, ¬ q ≠ start) all_cells ≡ₚ [start]) as Hone.
  { apply NoDup_Permutation.
    - apply NoDup_filter, NoDup_all_cells.
    - apply NoDup_singleton.
    - intros q. rewrite list_elem_of_filter, list_elem_of_singleton,
        elem_of_all_cells.
      split; [intros [Hq _]; by destruct (decide (q = start))|].
      intros ->. split; [|done]. by intros []. }
  apply Permutation_length in Hone. simpl in Hone.
  rewrite length_all_cells in Hperm. unfold in_grid in Hstart. nia.
Qed.

(** The loop returns when [rand()] yields cells that are free. *)
Lemma generate_loop_draws targets start i cells :
  sized cells → NoDup targets →
  (∀ q, q ∈ targets → in_grid q ∧ q ≠ start ∧ ¬ mine_at width cells q) →
  i + Z.of_nat (length targets) = num_mines →
  ∃ cells',
    generate_loop width height num_mines (draws_for targets) start i cells
    = Some (cells', []).
Proof.
  revert i cells. induction targets as [|q ts IH]; intros i cells Hs Hnd Hts Hi.
  - simpl in *. rewrite decide_False by lia. by eexists.
  - apply NoDup_cons in Hnd as [Hq Hnd].
    destruct (Hts q) as (Hg & Hne & Hm); [left|].
    destruct q as [x y]. unfold draws_for. rewrite bind_cons.
    fold (draws_for ts). simpl in *. rewrite decide_True by lia.
    unfold in_grid in Hg. simpl in Hg.
    rewrite !Z2N.id, !Z.rem_small by lia.
    rewrite decide_True by (intros [-> ->]; by destruct start).
    destruct (cell_at_is_Some cells (x, y) Hs) as [c Hc];
      [unfold in_grid; simpl; lia|].
    rewrite Hc. simpl.
    destruct (is_mine c) eqn:Hmine.
    { destruct Hm. unfold mine_at. rewrite Hc. simpl. by rewrite Hmine. }
    apply IH; [by apply sized_store|done| |lia].
    intros q' Hq'. destruct (Hts q') as (Hg' & Hne' & Hm'); [by right|].
    split_and!; [done..|].
    change (y * width + x) with (index (x, y)).
    unfold mine_at. rewrite cell_at_store_ne; [done|..|done|].
    + unfold in_grid. simpl. lia.
    + intros E. by rewrite <- E in Hq'.
Qed.

Lemma generate_mines_can_return cells start :
  sized cells → Forall (λ c, is_mine c = false) cells →
  in_grid start → 0 ≤ num_mines < width * height →
  ∃ rs cells', generate_mines width height num_mines rs start cells
               = Some (cells', []).
Proof.
  intros Hs Hnone Hstart Hn.
  set (targets := take (Z.to_nat num_mines)
                       (filter (λ q, q ≠ start) all_cells)).
  exists (draws_for targets). unfold generate_mines.
  apply generate_loop_draws; [done| | |].
  - eapply sublist_NoDup; [|apply sublist_take].
    apply NoDup_filter, NoDup_all_cells.
  - intros q (k & Hq%list_elem_of_lookup_2 & _)%elem_of_take.
    apply list_elem_of_filter in Hq as [Hne Hq%elem_of_all_cells].
    split_and!; [done..|].
    unfold mine_at, cell_at. intros Hm.
    destruct (load cells (index q)) as [c|] eqn:Hc; [|done].
    apply load_Some in Hc as [_ Hl].
    pose proof (Forall_lookup_1 _ _ _ _ Hnone Hl) as Hf. simpl in *.
    congruence.
  - unfold targets. rewrite length_take.
    pose proof (free_cells start Hstart). lia.
Qed.

(** C5. On a board without mines, for a start cell of the grid and
    [0 ≤ num_mines < width*height], [generate_mines] returns for suitable
    results of [rand()]; and whenever it returns, exactly [num_mines] cells
    of the array are mines, the start cell is none of them, the cells the
    loop chose are pairwise distinct and are the mines of the grid, and no
    state or count was touched. *)
Theorem generate_mines_places cells start :
  sized cells → Forall (λ c, is_mine c = false) cells →
  in_grid start → 0 ≤ num_mines < width * height →
  (∃ rs cells' rs',
     generate_mines width height num_mines rs start cells
     = Some (cells', rs')) ∧
  ∀ rs cells' rs',
    generate_mines width height num_mines rs start cells = Some (cells', rs') →
    Z.of_nat (mines cells') = num_mines ∧
    ¬ mine_at width cells' start ∧
    same_states_and_counts cells cells' ∧
    ∃ picks,
      generate_trace width height num_mines rs start 0 (cells, [])
      = Some (cells', picks) ∧
      NoDup picks ∧
      Z.of_nat (length picks) = num_mines ∧
      (∀ q, q ∈ picks → in_grid q ∧ q ≠ start) ∧
      (∀ q, in_grid q → mine_at width cells' q ↔ q ∈ picks).
Proof.
  intros Hs Hnone Hstart Hn. split.
  { destruct (generate_mines_can_return cells start Hs Hnone Hstart Hn)
      as (rs & cells' & H). by exists rs, cells', []. }
  intros rs cells' rs' Hgen. unfold generate_mines in Hgen.
  pose proof (generate_trace_loop rs start 0 (cells, [])) as Htr.
  simpl in Htr. rewrite Hgen in Htr. simpl in Htr.
  destruct (generate_trace width height num_mines rs start 0 (cells, []))
    as [[cells'' picks]|] eqn:E; [|done].
  simpl in Htr. injection Htr as ->.
  assert (placed start cells 0 (cells, [])) as Hpl.
  { unfold placed. simpl. split_and!.
    - apply same_states_refl.
    - by rewrite mines_none.
    - done.
    - apply NoDup_nil_2.
    - intros q Hq. by apply elem_of_nil in Hq.
    - intros q Hq. rewrite elem_of_nil. split; [|done].
      unfold mine_at, cell_at. intros Hm.
      destruct (load cells (index q)) as [c|] eqn:Hc; [|done].
      apply load_Some in Hc as [_ Hl].
      pose proof (Forall_lookup_1 _ _ _ _ Hnone Hl) as Hf. simpl in *.
      congruence. }
  assert (0 < width ∧ 0 < height) as [Hw Hh]
    by (unfold in_grid in Hstart; lia).
  destruct (generate_trace_placed rs start cells 0 _ _ Hw Hh Hstart
              ltac:(lia) Hpl E) as (Hsame & Hmines & Hlen & Hnd & Hin & Hmine).
  simpl in *. split_and!; try done.
  - intros Hm. apply Hmine in Hm; [|done]. by destruct (Hin _ Hm).
  - exists picks. split_and!; done.
Qed.

(** ** What the last iteration of [draw] decides *)

(** The scan visits the array in the order of its indices. *)
Lemma index_all_cells :
  0 ≤ width → index <$> all_cells = seqZ 0 (height * width).
Proof.
  intros Hw. unfold all_cells.
  destruct (decide (0 ≤ height)) as [Hh|Hh].
  2: { rewrite (seqZ_nil 0 height), (seqZ_nil 0 (height * width)) by nia. done. }
  rewrite <- (Z2Nat.id height Hh). generalize (Z.to_nat height). clear Hh.
  assert (∀ y (l : list Z),
            index <$> (l ≫= λ x, [(x, y)]) = Z.add (y * width) <$> l) as Hrow.
  { intros y l. induction l as [|x l IHl]; [done|].
    rewrite bind_cons, fmap_app, IHl. done. }
  intros n. induction n as [|n IH].
  - done.
  - rewrite seqZ_S, bind_app, fmap_app, IH, bind_singleton, Hrow.
    rewrite fmap_add_seqZ.
    replace (Z.of_nat (S n) * width) with (Z.of_nat n * width + width) by lia.
    rewrite seqZ_app by lia. do 2 f_equal. lia.
Qed.

Lemma load_seqZ cells :
  load cells <$> seqZ 0 (Z.of_nat (length cells)) = Some <$> cells.
Proof.
  apply list_eq. intros i. rewrite !list_lookup_fmap.
  destruct (decide (i < length cells)%nat) as [Hi|Hi].
  - rewrite lookup_seqZ_lt by lia. simpl. unfold load.
    rewrite decide_True by lia. rewrite Z.add_0_l, Nat2Z.id.
    by destruct (lookup_lt_is_Some_2 cells i Hi) as [c ->].
  - rewrite lookup_seqZ_ge by lia. by rewrite lookup_ge_None_2 by lia.
Qed.

Lemma cells_all_cells cells :
  sized cells → 0 ≤ width → cell_at cells <$> all_cells = Some <$> cells.
Proof.
  intros Hs Hw. unfold cell_at.
  change (λ p, load cells (index p)) with (load cells ∘ index).
  rewrite list_fmap_compose, index_all_cells by done.
  unfold sized in Hs. rewrite <- Hs. apply load_seqZ.
Qed.

Lemma draw_cells_remaining cells l st st' :
  for_each (draw_cell width cells) l st = Some st' →
  uncovers_remaining st'.1
  = uncovers_remaining st.1
    - Z.of_nat (length (filter (λ o, state <$> o = Some UNCOVERED)
                               (cell_at cells <$> l))).
Proof.
  revert st. induction l as [|q l IH]; intros st H; simpl in H.
  - injection H as <-. simpl. lia.
  - destruct (draw_cell width cells q st) as [st1|] eqn:E; [|done].
    rewrite (IH st1 H). unfold draw_cell in E.
    rewrite fmap_cons, filter_cons.
    destruct (cell_at cells q) as [c|] eqn:Hc; simpl in E; [|done].
    injection E as <-.
    destruct (state c) eqn:Hst; cbn [fst uncovers_remaining];
      (rewrite decide_True by (simpl; congruence))
      || (rewrite decide_False by (simpl; congruence));
      simpl length; lia.
Qed.

Lemma uncovered_Some cells :
  length (filter (λ o, state <$> o = Some UNCOVERED) (Some <$> cells))
  = uncovered cells.
Proof.
  unfold uncovered. induction cells as [|c cells IH]; [done|].
  rewrite fmap_cons, !filter_cons. simpl.
  destruct (decide (state c = UNCOVERED)).
  - rewrite decide_True by congruence. simpl. by rewrite IH.
  - rewrite decide_False by congruence. done.
Qed.

(** Where no mine is uncovered, the uncovered cells are as many as the
    cells without a mine exactly when all of those are uncovered. *)
Lemma uncovered_all cells :
  Forall (λ c, state c = UNCOVERED → is_mine c = false) cells →
  (uncovered cells + mines cells ≤ length cells)%nat ∧
  ((uncovered cells + mines cells = length cells)%nat ↔
   Forall (λ c, is_mine c = false → state c = UNCOVERED) cells).
Proof.
  unfold uncovered.
  induction 1 as [|c cells Hc _ [IHle IHeq]]; [by split|].
  rewrite filter_cons, mines_cons, Forall_cons. simpl length.
  destruct (decide (state c = UNCOVERED)) as [Hst|Hst].
  - rewrite (Hc Hst). simpl length. split; [lia|].
    rewrite <- IHeq. split; [intros ?; split; [done|lia]|intros [_ ?]; lia].
  - destruct (is_mine c) eqn:Hm.
    + split; [lia|]. rewrite <- IHeq.
      split; [intros ?; split; [done|lia]|intros [_ ?]; lia].
    + split; [lia|]. split; [lia|]. intros [Hu _]. by destruct Hst, Hu.
Qed.

(** On a board that holds [num_mines] mines, none of them uncovered, the
    variables of [draw] after the scan tell loss and win apart as the
    specification asks, and the last iteration prints accordingly. *)
Lemma draw_decides cells scr v scr' :
  sized cells → 0 < width → 0 < height →
  Z.of_nat (mines cells) = num_mines →
  Forall (λ c, state c = UNCOVERED → is_mine c = false) cells →
  draw_loop width height num_mines cells scr = Some (v, scr') →
  (gameover v = true ↔ ∃ q, in_grid q ∧ state_at cells q = Some EXPLODED) ∧
  (reports_lost scr' ↔ gameover v = true) ∧
  (uncovers_remaining v = 0 ↔
   Forall (λ c, is_mine c = false → state c = UNCOVERED) cells) ∧
  (gameover v = false → uncovers_remaining v = 0 → reports_won scr').
Proof.
  intros Hs Hw Hh Hmines Hsafe Hd. unfold draw_loop in Hd.
  assert (all_cells ≠ []) as Hne.
  { intros E. assert ((0, 0) ∈ all_cells) as Hin
      by (apply elem_of_all_cells; unfold in_grid; simpl; lia).
    rewrite E in Hin. by apply elem_of_nil in Hin. }
  split_and!.
  - rewrite (draw_cells_gameover _ _ _ _ Hd). simpl.
    setoid_rewrite elem_of_all_cells.
    split; [intros [?|?]; done|by right].
  - apply (draw_cells_lost _ _ _ _ Hne Hd).
  - pose proof (draw_cells_remaining _ _ _ _ Hd) as Hrem. simpl in Hrem.
    rewrite Hrem.
    rewrite cells_all_cells, uncovered_Some by (done || lia).
    destruct (uncovered_all cells Hsafe) as [Hle <-].
    unfold sized in Hs. lia.
  - intros Hg Hz. unfold reports_won.
    destruct all_cells as [|q l _] using rev_ind; [done|].
    rewrite for_each_app in Hd.
    destruct (for_each (draw_cell width cells) l _) as [st1|]; [|done].
    simpl in Hd.
    destruct (draw_cell width cells q st1) as [st2|] eqn:E; [|done].
    injection Hd as ->. unfold draw_cell in E.
    destruct (cell_at cells q) as [c|]; simpl in E; [|done].
    injection E as <- <-.
    destruct (state c); simpl in *; rewrite ?Hg; simpl;
      try (by rewrite decide_True by done); done.
Qed.

(** ** The invariant of the game *)

Lemma Forall2_compose {A} (R1 R2 R3 : A → A → Prop) l1 l2 l3 :
  (∀ a b c, R1 a b → R2 b c → R3 a c) →
  Forall2 R1 l1 l2 → Forall2 R2 l2 l3 → Forall2 R3 l1 l3.
Proof.
  intros HR H12. revert l3.
  induction H12 as [|a b l1 l2 Hab _ IH]; intros l3 H23.
  - inversion H23. constructor.
  - inversion H23 as [|? c ? l3' Hbc H23']; subst.
    constructor; [by eapply HR|by apply IH].
Qed.

Lemma Forall2_store {A} (R : A → A → Prop) (l : list A) i x y :
  (∀ a, R a a) → l !! i = Some x → R x y → Forall2 R l (<[i:=y]> l).
Proof.
  intros Hrefl Hl HR.
  rewrite <- (list_insert_id l i x) at 1 by done.
  apply Forall2_insert; [|done].
  apply Forall_Forall2_diag, Forall_forall. auto.
Qed.

Lemma flag_cell_flags p cells cells' :
  flag width p cells = Some cells' → Forall2 cell_flags cells cells'.
Proof.
  assert (∀ a, cell_flags a a) as Hrefl by (unfold cell_flags; tauto).
  unfold flag. intros H.
  destruct (cell_at cells p) as [c|] eqn:Hc; simpl in H; [|done].
  unfold cell_at in Hc. apply load_Some in Hc as [_ Hl].
  destruct (state c) eqn:Hst; injection H as <-;
    try (apply Forall_Forall2_diag, Forall_forall; auto);
    (eapply Forall2_store; [done..|]); unfold cell_flags; simpl; tauto.
Qed.

Lemma generate_loop_prepared rs start i cells cells' rs' :
  generate_loop width height num_mines rs start i cells = Some (cells', rs') →
  Forall2 cell_prepared cells cells'.
Proof.
  assert (∀ a, cell_prepared a a) as Hrefl by (unfold cell_prepared; tauto).
  revert i cells.
  induction rs as [|r|r1 r2 rs IH] using list_pair_ind; intros i cells H;
    simpl in H.
  - case_decide; [done|]. injection H as <- <-.
    apply Forall_Forall2_diag, Forall_forall. auto.
  - case_decide; [done|]. injection H as <- <-.
    apply Forall_Forall2_diag, Forall_forall. auto.
  - case_decide.
    2: { injection H as <- <-. apply Forall_Forall2_diag, Forall_forall. auto. }
    case_decide; [|by eapply IH].
    destruct (cell_at cells _) as [c|] eqn:Hc; simpl in H; [|done].
    destruct (is_mine c) eqn:Hm; [by eapply IH|].
    apply IH in H.
    eapply (Forall2_compose cell_prepared cell_prepared); [| |done].
    + unfold cell_prepared. intros a b d [? ?] [? ?]. split; [tauto|congruence].
    + unfold cell_at in Hc. apply load_Some in Hc as [_ Hl].
      by eapply Forall2_store.
Qed.

Lemma Forall2_Forall_r {A} (R : A → A → Prop) (P Q : A → Prop) l l' :
  (∀ a b, R a b → P a → Q b) → Forall2 R l l' → Forall P l → Forall Q l'.
Proof.
  intros HR. induction 1 as [|a b l l' Hab _ IH]; [constructor|].
  intros [Ha Hl]%Forall_cons. constructor; [by eapply HR|by apply IH].
Qed.

Lemma prepared_safe cells cells' :
  Forall2 cell_prepared cells cells' →
  Forall (λ c, state c ≠ UNCOVERED) cells → safe true cells'.
Proof.
  intros Hp Hnone. split; [|done].
  eapply Forall2_Forall_r; [|done..]. intros a b [_ E] Ha _. congruence.
Qed.

Lemma evolves_safe cells cells' :
  evolves cells cells' → safe true cells → safe true cells'.
Proof.
  intros He [Hs _]. split; [|done].
  eapply Forall2_Forall_r; [|done..].
  intros a b (Hm & _ & Hst) Ha Hb. rewrite Hm in Hb.
  destruct Hst as [E|[_ E]]; [rewrite E; by apply Ha|].
  rewrite E, Hb. done.
Qed.

Lemma flags_safe g cells cells' :
  Forall2 cell_flags cells cells' → safe g cells → safe g cells'.
Proof.
  intros Hf [Hs Hg]. split.
  - eapply Forall2_Forall_r; [|done..].
    intros a b (Hm & _ & Hst) Ha Hb. rewrite Hm in Hb.
    destruct Hst as [E|[[_ E]|[_ E]]]; rewrite E; [by apply Ha|done..].
  - intros ->. eapply Forall2_Forall_r; [|done|by apply Hg].
    intros a b (_ & _ & Hst) Ha.
    destruct Hst as [E|[[_ E]|[_ E]]]; rewrite E; done.
Qed.

Lemma safe_zeroed : safe false (zeroed width height).
Proof.
  unfold safe, zeroed. split; [|intros _];
    apply Forall_forall; intros c ->%elem_of_replicate_inv; done.
Qed.

Lemma same_mines_prepared cells cells' :
  same_mines_and_states cells cells' → Forall2 cell_prepared cells cells'.
Proof.
  intros H. eapply Forall2_impl; [done|]. clear H. intros a b [Hm Hst]. split; [congruence|done].
Qed.

Lemma prepared_trans cells1 cells2 cells3 :
  Forall2 cell_prepared cells1 cells2 → Forall2 cell_prepared cells2 cells3 →
  Forall2 cell_prepared cells1 cells3.
Proof.
  apply Forall2_compose. unfold cell_prepared.
  intros a b c [? ?] [? ?]. split; [tauto|congruence].
Qed.

Lemma ensure_generated_prepared s s' :
  ensure_generated width height num_mines s = Some s' →
  s_generated s' = true ∧
  (if s_generated s then s' = s
   else Forall2 cell_prepared (s_cells s) (s_cells s')).
Proof.
  unfold ensure_generated. destruct (s_generated s) eqn:Hg.
  - by intros [= <-].
  - intros H.
    destruct (generate_mines _ _ _ _ _ _) as [[cells1 rs1]|] eqn:Hgen;
      simpl in H; [|done].
    destruct (calculate_neighbors _ _ _) as [cells2|] eqn:Hcalc;
      simpl in H; [|done].
    injection H as <-. simpl. split; [done|].
    eapply prepared_trans.
    + by eapply generate_loop_prepared.
    + apply same_mines_prepared. by eapply calculate_neighbors_spec.
Qed.

Lemma ensure_generated_safe s s' :
  safe (s_generated s) (s_cells s) →
  ensure_generated width height num_mines s = Some s' →
  safe true (s_cells s').
Proof.
  intros Hsafe H. destruct (ensure_generated_prepared _ _ H) as [_ Hp].
  destruct (s_generated s) eqn:Hg; [by subst|].
  eapply prepared_safe; [done|]. by apply Hsafe.
Qed.

Lemma handle_key_safe k s s' :
  safe (s_generated s) (s_cells s) →
  handle_key width height num_mines k s = Some s' →
  safe (s_generated s') (s_cells s').
Proof.
  intros Hsafe. unfold handle_key. destruct (s_cursor s) as [x y] eqn:Hcur.
  destruct k; try (intros [= <-]; try case_decide; done).
  - intros H.
    destruct (ensure_generated _ _ _ s) as [s1|] eqn:Hgen; simpl in H; [|done].
    destruct (reveal _ _ _ _) as [cells'|] eqn:Hrev; simpl in H; [|done].
    injection H as <-. simpl.
    destruct (ensure_generated_prepared _ _ Hgen) as [-> _].
    eapply evolves_safe; [by eapply uncover_evolves|].
    by eapply ensure_generated_safe.
  - intros H.
    destruct (flag _ _ _) as [cells'|] eqn:Hflag; simpl in H; [|done].
    injection H as <-. simpl.
    eapply flags_safe; [|done]. by eapply flag_cell_flags.
Qed.

Lemma step_safe k s s' :
  safe (s_generated s) (s_cells s) →
  step width height num_mines k s = Some s' →
  safe (s_generated s') (s_cells s').
Proof.
  intros Hsafe. unfold step. intros H.
  destruct (handle_key _ _ _ _ _) as [s1|] eqn:Hk; simpl in H; [|done].
  destruct (draw _ _ _ _ _) as [scr|]; simpl in H; [|done].
  injection H as <-. simpl.
  eapply handle_key_safe; [|done].
  unfold reset_if_new. destruct (s_new_game s); [apply safe_zeroed|done].
Qed.

Lemma reachable_safe s :
  reachable width height num_mines s → safe (s_generated s) (s_cells s).
Proof.
  intros (rs & keys & Hrun). unfold run in Hrun.
  apply (for_each_inv
           (λ s1 s2, safe (s_generated s1) (s_cells s1) →
                     safe (s_generated s2) (s_cells s2))
           (λ _ _, True)) in Hrun.
  - apply Hrun. apply safe_zeroed.
  - done.
  - auto.
  - done.
  - intros k s1 s2 _ _ Hstep. split; [|done]. intros Hsafe.
    destruct (s_game_active s1); [by eapply step_safe|congruence].
Qed.

Lemma evolves_mine_moves cells cells' :
  evolves cells cells' → Forall2 mine_moves cells cells'.
Proof.
  intros H. eapply Forall2_impl; [done|]. clear H. intros a b (Hm & _ & Hst) Ha.
  split; [congruence|]. rewrite Ha in Hst. tauto.
Qed.

Lemma flags_mine_moves cells cells' :
  Forall2 cell_flags cells cells' → Forall2 mine_moves cells cells'.
Proof.
  intros H. eapply Forall2_impl; [done|]. clear H. intros a b (Hm & _ & Hst) Ha.
  split; [congruence|]. tauto.
Qed.

Lemma prepared_mine_moves cells1 cells2 cells3 :
  Forall2 cell_prepared cells1 cells2 → Forall2 mine_moves cells2 cells3 →
  Forall2 mine_moves cells1 cells3.
Proof.
  apply Forall2_compose. unfold cell_prepared, mine_moves.
  intros a b c [Hm Hst] Hbc Ha. rewrite <- Hst. tauto.
Qed.

Lemma mine_moves_refl cells : Forall2 mine_moves cells cells.
Proof. apply Forall_Forall2_diag, Forall_forall. unfold mine_moves. tauto. Qed.

Lemma step_mine_moves k s s' :
  s_new_game s = false →
  step width height num_mines k s = Some s' →
  Forall2 mine_moves (s_cells s) (s_cells s').
Proof.
  intros Hnew. unfold step, reset_if_new. rewrite Hnew. intros H.
  destruct (handle_key _ _ _ _ _) as [s1|] eqn:Hk; simpl in H; [|done].
  destruct (draw _ _ _ _ _) as [scr|]; simpl in H; [|done].
  injection H as <-. simpl.
  unfold handle_key in Hk. destruct (s_cursor s) as [x y] eqn:Hcur.
  destruct k;
    try (injection Hk as <-; try case_decide; apply mine_moves_refl).
  - destruct (ensure_generated _ _ _ s) as [s2|] eqn:Hgen; simpl in Hk; [|done].
    destruct (reveal _ _ _ _) as [cells'|] eqn:Hrev; simpl in Hk; [|done].
    injection Hk as <-. simpl.
    apply uncover_evolves, evolves_mine_moves in Hrev.
    destruct (ensure_generated_prepared _ _ Hgen) as [_ Hp].
    destruct (s_generated s); [by subst|]. by eapply prepared_mine_moves.
  - destruct (flag _ _ _) as [cells'|] eqn:Hflag; simpl in Hk; [|done].
    injection Hk as <-. simpl. by eapply flags_mine_moves, flag_cell_flags.
Qed.

(** The loop of [main] keeps the array at its size and the cursor on the
    grid, so that none of its reads leaves the array. *)
Lemma wrap_fits z : INT_MIN ≤ z ≤ INT_MAX → wrap z = z.
Proof. unfold wrap, INT_MIN, INT_MAX. intros H. rewrite Z.mod_small; lia. Qed.

Lemma wrap_range z : INT_MIN ≤ wrap z ≤ INT_MAX.
Proof.
  unfold wrap, INT_MIN, INT_MAX.
  pose proof (Z.mod_pos_bound (z - -2147483648) (2 ^ 32)). lia.
Qed.

Lemma sized_zeroed :
  0 < width → 0 < height → height * width ≤ INT_MAX →
  sized (zeroed width height).
Proof.
  intros Hw Hh Hf. unfold sized, zeroed, int_mul.
  rewrite length_replicate, wrap_fits; unfold INT_MIN; nia.
Qed.

Lemma Forall2_sized {R : cell → cell → Prop} cells cells' :
  Forall2 R cells cells' → sized cells → sized cells'.
Proof. unfold sized. intros H%Forall2_length. by rewrite <- H. Qed.

Lemma handle_key_sized k s s' :
  sized (s_cells s) → in_grid (s_cursor s) →
  handle_key width height num_mines k s = Some s' →
  sized (s_cells s') ∧ in_grid (s_cursor s').
Proof.
  intros Hs Hc. unfold handle_key.
  destruct (s_cursor s) as [x y] eqn:Hcur.
  assert (∀ c, in_grid c → in_grid (s_cursor (with_cursor s c))) as Hmove by done.
  unfold in_grid in Hc, Hmove. simpl in Hc.
  destruct k; try (intros [= <-]; try case_decide; simpl; rewrite ?Hcur;
                   split; (done || (unfold in_grid; simpl; lia))).
  - intros H.
    destruct (ensure_generated _ _ _ s) as [s1|] eqn:Hgen; simpl in H; [|done].
    destruct (reveal _ _ _ _) as [cells'|] eqn:Hrev; simpl in H; [|done].
    injection H as <-. simpl.
    destruct (ensure_generated_prepared _ _ Hgen) as [_ Hp].
    assert (sized (s_cells s1) ∧ s_cursor s1 = (x, y)) as [Hs1 ->].
    { destruct (s_generated s) eqn:Hg; [by subst|].
      split; [by eapply Forall2_sized|].
      unfold ensure_generated in Hgen. rewrite Hg in Hgen.
      destruct (generate_mines _ _ _ _ _ _); simpl in Hgen; [|done].
      destruct (calculate_neighbors _ _ _); simpl in Hgen; [|done].
      by injection Hgen as <-. }
    split; [|unfold in_grid; simpl; lia].
    eapply evolves_sized; [|done]. by eapply uncover_evolves.
  - intros H.
    destruct (flag _ _ _) as [cells'|] eqn:Hflag; simpl in H; [|done].
    injection H as <-. simpl. rewrite Hcur.
    split; [|unfold in_grid; simpl; lia].
    eapply Forall2_sized; [|done]. by eapply flag_cell_flags.
Qed.

Lemma reachable_sized s :
  0 < width → 0 < height → height * width ≤ INT_MAX →
  reachable width height num_mines s →
  sized (s_cells s) ∧ in_grid (s_cursor s).
Proof.
  intros Hw Hh Hf (rs & keys & Hrun). unfold run in Hrun.
  apply (for_each_inv
           (λ s1 s2, sized (s_cells s1) ∧ in_grid (s_cursor s1) →
                     sized (s_cells s2) ∧ in_grid (s_cursor s2))
           (λ _ _, True)) in Hrun.
  - apply Hrun. split; [by apply sized_zeroed|]. unfold in_grid. simpl. lia.
  - done.
  - auto.
  - done.
  - intros k s1 s2 _ _ Hstep. split; [|done]. intros [Hs Hc].
    destruct (s_game_active s1); [|by injection Hstep as <-].
    unfold step in Hstep.
    destruct (handle_key _ _ _ _ _) as [s3|] eqn:Hk; simpl in Hstep; [|done].
    destruct (draw _ _ _ _ _) as [scr|]; simpl in Hstep; [|done].
    injection Hstep as <-. simpl.
    eapply handle_key_sized; [| |done].
    + unfold reset_if_new. destruct (s_new_game s1); [by apply sized_zeroed|done].
    + unfold reset_if_new. by destruct (s_new_game s1).
Qed.

(** C10. In every state that the game reaches no cell is both a mine and
    [UNCOVERED]; and a turn of the loop on the same board moves a mine
    cell only between [COVERED] and [FLAGGED], or from [COVERED] to
    [EXPLODED]. *)
Theorem mines_never_uncovered s :
  reachable width height num_mines s →
  Forall (λ c, ¬ (is_mine c = true ∧ state c = UNCOVERED)) (s_cells s) ∧
  ∀ k s', s_new_game s = false →
          step width height num_mines k s = Some s' →
          Forall2 mine_moves (s_cells s) (s_cells s').
Proof.
  intros Hr. split.
  - destruct (reachable_safe s Hr) as [Hs _].
    eapply Forall_impl; [done|]. simpl. intros c Hc [Hm Hst]. by apply Hc.
  - intros k s'. apply step_mine_moves.
Qed.

End Facts.

(** ** Start-up *)

Lemma parse_opts_custom opts g :
  g_custom_num_mines (foldl (λ g o, parse_opt o.1 o.2 g) g opts)
  = g_custom_num_mines g.
Proof.
  revert g. induction opts as [|[k a] opts IH]; intros g; simpl; [done|].
  rewrite IH. by destruct k, a.
Qed.

(** C8, as the code has it.  Whatever the options, [custom_num_mines] is
    still false after [argp_parse], so [main] overwrites [num_mines] with
    the [int] [(width*height)/6], which is the exact quotient when the
    product fits an [int]: with [-m 5] on the default 20 by 20 board the
    game is played with 66 mines. *)
Theorem num_mines_override_ignored :
  (∀ opts,
     g_custom_num_mines (main_setup opts) = false ∧
     g_num_mines (main_setup opts)
     = Z.quot (int_mul (g_width (main_setup opts))
                       (g_height (main_setup opts))) 6 ∧
     (INT_MIN ≤ g_width (main_setup opts) * g_height (main_setup opts)
      ≤ INT_MAX →
      g_num_mines (main_setup opts)
      = Z.quot (g_width (main_setup opts) * g_height (main_setup opts)) 6)) ∧
  g_num_mines (main_setup [(OPT_m, Some 5)]) = 66 ∧
  g_game_active (main_setup [(OPT_m, Some 5)]) = true.
Proof.
  split; [|done]. intros opts. unfold main_setup.
  rewrite parse_opts_custom. simpl. split_and!; [done..|].
  intros H. unfold int_mul. by rewrite wrap_fits.
Qed.

Lemma counts_ok_Forall width height cells :
  Forall (count_ok_at width height cells) (all_cells width height) →
  counts_ok width height cells.
Proof.
  intros H p c Hp%elem_of_all_cells Hc.
  rewrite Forall_forall in H. specialize (H p Hp).
  unfold count_ok_at in H. by rewrite Hc in H.
Qed.


Lemma counts_ok_opened : counts_ok 3 2 opened.
Proof. apply counts_ok_Forall. apply (bool_decide_unpack _). by vm_compute. Qed.


Lemma reachable_lost_then_cleared : reachable 3 2 1 lost_then_cleared.
Proof.
  exists [2; 1]%N,
    [KEY_UNCOVER; KEY_RIGHT; KEY_RIGHT; KEY_DOWN; KEY_UNCOVER; KEY_UP;
     KEY_UNCOVER].
  by vm_compute.
Qed.

Lemma reachable_won_then_new : reachable 1 1 0 won_then_new.
Proof. exists [], [KEY_UNCOVER; KEY_NEW; KEY_OTHER]. by vm_compute. Qed.

(** C1, as the code has it.  [draw] decides the status inside its scan and
    prints "You Win!" on a row that nothing clears.  On the 3 by 2 board
    with the mine at (2,1), once that mine has exploded and the last safe
    cell is uncovered, the scan prints "You Win!" when it has counted the
    safe cells and "Game Over" one cell later, and the player reads both.
    On the 1 by 1 board the win stays on the screen after a new game has
    covered the cell again. *)
Theorem draw_reports_win_with_exploded_cell :
  (g_num_mines (main_setup [(OPT_w, Some 3); (OPT_h, Some 2)]) = 1 ∧
   reachable 3 2 1 lost_then_cleared ∧
   state_at 3 (s_cells lost_then_cleared) (2, 1) = Some EXPLODED ∧
   draw 3 2 1 (s_cells lost_then_cleared) (Screen Blank Blank)
   = Some (Screen YouWin GameOver) ∧
   reports_won (s_screen lost_then_cleared) ∧
   reports_lost (s_screen lost_then_cleared)) ∧
  (g_num_mines (main_setup [(OPT_w, Some 1); (OPT_h, Some 1)]) = 0 ∧
   reachable 1 1 0 won_then_new ∧
   s_cells won_then_new = [Cell false COVERED 0] ∧
   reports_won (s_screen won_then_new)).
Proof.
  split; split_and!; try done.
  - apply reachable_lost_then_cleared.
  - apply reachable_won_then_new.
Qed.

(** The scenarios of the specification. *)
Example scenario_1_1 :
  ∃ s, run 1 1 0 [KEY_UNCOVER] (initial 1 1 []) = Some s ∧
       s_cells s = [Cell false UNCOVERED 0] ∧
       s_screen s = Screen YouWin Blank.
Proof. eexists. by vm_compute. Qed.

Example scenario_3_3 :
  ∃ s, run 3 3 1
         [KEY_RIGHT; KEY_DOWN; KEY_UNCOVER;
          KEY_LEFT; KEY_UP; KEY_FLAG;
          KEY_RIGHT; KEY_DOWN; KEY_UNCOVER] (initial 3 3 [0; 0]%N) = Some s ∧
       s_cells s = cleared_3_3 ∧
       s_screen s = Screen YouWin Blank.
Proof. eexists. by vm_compute. Qed.

Example scenario_5_5 :
  ∃ cells', reveal 5 5 (2, 2) centre_mine = Some cells' ∧
            state_at 5 cells' (2, 2) = Some EXPLODED ∧
            draw 5 5 1 cells' (Screen Blank Blank)
            = Some (Screen Blank GameOver).
Proof. eexists. by vm_compute. Qed.

(** After flags were put and taken off, a board without any flag can hold
    an uncovered cell without adjacent mines next to a covered one; the
    cascade from (0,0) then ends at (1,0) and (3,0), a cell of the zero
    region, stays covered. *)
Example cascade_after_unflagging :
  reachable 5 1 0 unflagged_later ∧
  no_flags (s_cells unflagged_later) ∧
  region 5 1 (s_cells unflagged_later) (0, 0) (3, 0) ∧
  ∃ cells', reveal 5 1 (0, 0) (s_cells unflagged_later) = Some cells' ∧
            state_at 5 cells' (3, 0) = Some COVERED.
Proof.
  split_and!.
  - exists [],
      [KEY_FLAG; KEY_RIGHT; KEY_RIGHT; KEY_RIGHT; KEY_FLAG;
       KEY_LEFT; KEY_LEFT; KEY_UNCOVER;
       KEY_LEFT; KEY_FLAG; KEY_RIGHT; KEY_RIGHT; KEY_RIGHT; KEY_FLAG].
    by vm_compute.
  - apply (bool_decide_unpack _). by vm_compute.
  - assert (∀ x, 0 ≤ x < 4 → (x + 1, 0) ∈ around 5 1 (x, 0)) as Hnext.
    { intros x Hx. apply elem_of_around. unfold in_grid, adjacent. simpl.
      split; [lia|]. split; [intros [=]; lia|lia]. }
    eapply region_step; [|apply (Hnext 2); lia|done].
    eapply region_step; [|apply (Hnext 1); lia|done].
    eapply region_step; [|apply (Hnext 0); lia|done].
    constructor.
  - eexists. by vm_compute.
Qed.

(** A flag in the zero region stays, and the reveal at (0,0) leaves the
    cell under it covered. *)
Example cascade_stops_at_flag :
  counts_ok 3 2 flagged_zero ∧
  region 3 2 flagged_zero (0, 0) (0, 1) ∧
  ∃ cells', reveal 3 2 (0, 0) flagged_zero = Some cells' ∧
            state_at 3 cells' (0, 1) = Some FLAGGED.
Proof.
  split_and!.
  - apply counts_ok_Forall. apply (bool_decide_unpack _). by vm_compute.
  - eapply region_step; [constructor| |done].
    apply elem_of_around. unfold in_grid, adjacent. simpl. split; [lia|].
    split; [done|lia].
  - eexists. by vm_compute.
Qed.


(** C7, as stated, fails in its last clause: on [wrong_flag] the reveal at
    (0,0) uncovers (2,0), a 1; the loop of the zero (1,1) then calls
    [uncover] on (2,0) again, which finds the cell [UNCOVERED] with one
    flag around it and runs its chord loop: that loop calls [uncover] on the
    mine at (3,0). *)
Lemma revisited_cell_cascades_again :
  ¬ (∀ cells p,
       sized 4 2 cells → in_grid 4 2 p →
       ∃ cells' log,
         uncover_events 4 2 (2 * covered cells + 1) p (cells, [])
         = Some (cells', log) ∧
         reveal 4 2 p cells = Some cells' ∧
         NoDup (writes log) ∧
         revisits_idle log).
Proof.
  intros H.
  destruct (H wrong_flag (0, 0)) as (cells' & log & Hev & _ & _ & Hidle);
    [reflexivity|unfold in_grid; simpl; lia|].
  vm_compute in Hev. injection Hev as <- <-.
  by apply (Hidle 12%nat 16%nat (2, 0) (3, 0)); [lia|..].
Qed.

(** In a game: with a flag put on (3,1) before the first uncover and the
    mine placed at (3,0), the first uncover, at (0,0), explodes that
    mine. *)
Example revisit_explodes_mine :
  counts_ok 4 2 wrong_flag ∧
  ∃ s,
    run 4 2 1
      [KEY_RIGHT; KEY_RIGHT; KEY_RIGHT; KEY_DOWN; KEY_FLAG;
       KEY_LEFT; KEY_LEFT; KEY_LEFT; KEY_UP; KEY_UNCOVER]
      (initial 4 2 [3; 0]%N) = Some s ∧
    reveal 4 2 (0, 0) wrong_flag = Some (s_cells s) ∧
    state_at 4 (s_cells s) (3, 0) = Some EXPLODED ∧
    reports_lost (s_screen s).
Proof.
  split_and!.
  - apply counts_ok_Forall. apply (bool_decide_unpack _). by vm_compute.
  - eexists. split_and!; by vm_compute.
Qed.

Lemma in_grid_3_2 x y : 0 ≤ x < 3 → 0 ≤ y < 2 → in_grid 3 2 (x, y).
Proof. unfold in_grid. simpl. lia. Qed.


Lemma uncover_terminates_once_witness :
  ∃ cells' log,
    reveal 3 2 (0, 0) opened = Some cells' ∧
    (need 3 opened (0, 0)%Z ≤ 2 * length opened + 1)%nat ∧
    (∀ fuel, (need 3 opened (0, 0)%Z ≤ fuel)%nat →
       uncover_trace 3 2 fuel (0, 0) (opened, []) = Some (cells', log) ∧
       uncover 3 2 fuel (0, 0) opened = Some cells') ∧
    NoDup log ∧
    (length log ≤ covered opened)%nat ∧
    (∀ q, q ∈ log ↔
          in_grid 3 2 q ∧ state_at 3 opened q = Some COVERED ∧
          state_at 3 cells' q ≠ Some COVERED).
Proof.
  apply (uncover_terminates_once 3 2 opened (0, 0));
    [reflexivity|apply in_grid_3_2; lia].
Defined.

Lemma uncover_mine_explodes_witness :
  ∃ cells' scr',
    reveal 3 2 (2, 0) opened = Some cells' ∧
    (∀ fuel, uncover 3 2 (S fuel) (2, 0) opened = Some cells') ∧
    cell_at 3 cells' (2, 0) = Some (Cell true EXPLODED 0) ∧
    (∀ q, in_grid 3 2 q → q ≠ (2, 0) → cell_at 3 cells' q = cell_at 3 opened q) ∧
    draw 3 2 1 cells' (Screen Blank Blank) = Some scr' ∧
    reports_lost scr'.
Proof.
  apply (uncover_mine_explodes 3 2 1 opened (2, 0) (Cell true COVERED 0));
    [reflexivity|apply in_grid_3_2; lia|reflexivity..].
Defined.






Lemma calculate_neighbors_counts_witness :
  ∃ cells',
    calculate_neighbors 3 2 misflagged = Some cells' ∧
    same_mines_and_states misflagged cells' ∧
    ∀ p c, in_grid 3 2 p → cell_at 3 cells' p = Some c →
           neighbors c = adjacent_mines 3 2 cells' p ∧
           0 ≤ neighbors c ≤ 8.
Proof. apply (calculate_neighbors_counts 3 2 misflagged). reflexivity. Defined.

Lemma generate_mines_places_witness :
  (∃ rs cells' rs',
     generate_mines 3 2 1 rs (0, 0) (zeroed 3 2) = Some (cells', rs')) ∧
  ∀ rs cells' rs',
    generate_mines 3 2 1 rs (0, 0) (zeroed 3 2) = Some (cells', rs') →
    Z.of_nat (mines cells') = 1 ∧
    ¬ mine_at 3 cells' (0, 0) ∧
    same_states_and_counts (zeroed 3 2) cells' ∧
    ∃ picks,
      generate_trace 3 2 1 rs (0, 0) 0 (zeroed 3 2, []) = Some (cells', picks) ∧
      NoDup picks ∧
      Z.of_nat (length picks) = 1 ∧
      (∀ q, q ∈ picks → in_grid 3 2 q ∧ q ≠ (0, 0)) ∧
      (∀ q, in_grid 3 2 q → mine_at 3 cells' q ↔ q ∈ picks).
Proof.
  apply (generate_mines_places 3 2 1 (zeroed 3 2) (0, 0));
    [reflexivity|apply (bool_decide_unpack _); by vm_compute
    |apply in_grid_3_2; lia|lia].
Defined.

Lemma mines_never_uncovered_witness :
  Forall (λ c, ¬ (is_mine c = true ∧ state c = UNCOVERED))
         (s_cells lost_then_cleared) ∧
  ∀ k s', s_new_game lost_then_cleared = false →
          step 3 2 1 k lost_then_cleared = Some s' →
          Forall2 mine_moves (s_cells lost_then_cleared) (s_cells s').
Proof.
  apply (mines_never_uncovered 3 2 1 lost_then_cleared).
  apply reachable_lost_then_cleared.
Defined.

(** * Further properties of the code *)

Section More.

Variables width height num_mines : Z.

Local Abbreviation index := (index width).
Local Abbreviation in_grid := (in_grid width height).
Local Abbreviation around := (around width height).
Local Abbreviation cell_at := (cell_at width).
Local Abbreviation state_at := (state_at width).
Local Abbreviation sized := (sized width height).
Local Abbreviation all_cells := (all_cells width height).
Local Abbreviation reveal := (reveal width height).
Local Abbreviation uncover := (uncover width height).
Local Abbreviation counts_ok := (counts_ok width height).
Local Abbreviation mine_at := (mine_at width).
Local Abbreviation zero_at := (zero_at width).

(** ** [uncover] *)

Lemma evolves_after_uncover cells cells' :
  evolves cells cells' → Forall2 after_uncover cells cells'.
Proof.
  intros H. eapply Forall2_impl; [done|]. clear H.
  intros c c' (Hm & Hn & Hst). unfold after_uncover.
  split_and!; try done.
  - destruct Hst as [->|[E ->]]; [done|].
    rewrite E. split; [by destruct (is_mine c)|done].
  - destruct Hst as [->|[E ->]]; [done|]. by destruct (is_mine c).
  - intros Hc. by destruct Hst as [?|[? _]].
  - intros Hne. by destruct Hst as [?|[_ ?]].
Qed.

(** X1. Whatever the cell it is called on, [uncover] keeps the size of the
    array, writes no [is_mine] and no [neighbors], puts no flag and takes
    none away, never covers a cell again and changes the state of
    [COVERED] cells only, a mine to [EXPLODED] and any other cell to
    [UNCOVERED]; the number of [COVERED] cells does not grow. *)
Theorem uncover_only_uncovers fuel p cells cells' :
  uncover fuel p cells = Some cells' →
  length cells' = length cells ∧
  Forall2 after_uncover cells cells' ∧
  (covered cells' ≤ covered cells)%nat ∧
  flagged cells' = flagged cells ∧
  mines cells' = mines cells.
Proof.
  intros H%uncover_evolves. split_and!.
  - by apply evolves_length.
  - by apply evolves_after_uncover.
  - by apply evolves_covered.
  - unfold flagged. induction H as [|c c' l l' Hc _ IH]; [done|].
    destruct Hc as (_ & _ & Hst).
    destruct (decide (state c = FLAGGED)) as [E|E].
    + rewrite !filter_cons_True; [simpl; by rewrite IH|done|].
      destruct Hst as [->|[E' _]]; congruence.
    + rewrite !filter_cons_False; [done..|].
      destruct Hst as [->|[_ ->]]; [done|]. by destruct (is_mine c).
  - induction H as [|c c' l l' Hc _ IH]; [done|].
    rewrite !mines_cons, IH. destruct Hc as (-> & _). done.
Qed.

(** X2. [uncover] on a [COVERED] cell takes that cell out of [COVERED]: it
    ends [EXPLODED] when it is a mine and [UNCOVERED] when it is not, and
    the board has fewer [COVERED] cells than before.  On a [FLAGGED] or
    [EXPLODED] cell the board is returned as it is. *)
Theorem reveal_by_state cells p c :
  sized cells → in_grid p → cell_at cells p = Some c →
  (state c = COVERED →
   ∃ cells',
     reveal p cells = Some cells' ∧
     state_at cells' p = Some (if is_mine c then EXPLODED else UNCOVERED) ∧
     (covered cells' < covered cells)%nat) ∧
  (state c = FLAGGED ∨ state c = EXPLODED →
   ∀ fuel, uncover (S fuel) p cells = Some cells).
Proof.
  intros Hs Hp Hc. split.
  - intros Hst.
    destruct (uncover_enough width height (2 * covered cells + 1) p cells
                Hs Hp (need_le _ _ _)) as [cells' Hu].
    exists cells'. split; [done|].
    pose proof (uncover_leaves_covered _ _ _ _ _ _ Hu) as Hout.
    pose proof (uncover_evolves _ _ _ _ _ _ Hu) as He.
    destruct (evolves_cell_at _ _ _ _ _ He Hc) as (c' & Hc' & _ & _ & Hev).
    assert (state c' = if is_mine c then EXPLODED else UNCOVERED) as Hst'.
    { destruct Hev as [E|[_ E]]; [|done]. destruct Hout.
      unfold state_at. rewrite Hc'. simpl. congruence. }
    split; [unfold state_at; rewrite Hc'; simpl; by rewrite Hst'|].
    (* the first write already lowers the count *)
    replace (2 * covered cells + 1)%nat with (S (2 * covered cells)) in Hu
      by lia.
    simpl in Hu. rewrite Hc in Hu. simpl in Hu. rewrite Hst in Hu.
    assert (∀ s, s ≠ COVERED →
              (covered (store cells (index p) (set_state c s)) + 1
               = covered cells)%nat) as Hdrop.
    { intros s Hs'. by eapply covered_store. }
    destruct (is_mine c).
    + injection Hu as <-. specialize (Hdrop EXPLODED ltac:(done)). lia.
    + specialize (Hdrop UNCOVERED ltac:(done)).
      assert (evolves (store cells (index p) (set_state c UNCOVERED)) cells')
        as He'.
      { case_decide; [|injection Hu as <-; apply evolves_refl].
        eapply (for_each_inv evolves (λ _ _, True)); [..|done].
        - apply evolves_refl.
        - apply evolves_trans.
        - done.
        - intros a s1 s2 _ _ Ha. split; [by eapply uncover_evolves|done]. }
      apply evolves_covered in He'. lia.
  - intros Hst fuel. simpl. rewrite Hc. simpl. by destruct Hst as [-> | ->].
Qed.

Lemma flags_on_mines_evolves cells cells' :
  evolves cells cells' → flags_on_mines cells → flags_on_mines cells'.
Proof.
  intros He. eapply Forall2_Forall_r; [|done].
  intros c c' (Hm & _ & Hst) Hc Hf. rewrite Hm. apply Hc.
  destruct Hst as [<-|[_ E]]; [done|].
  rewrite E in Hf. by destruct (is_mine c).
Qed.

Lemma counts_ok_evolves cells cells' :
  evolves cells cells' → counts_ok cells → counts_ok cells'.
Proof.
  intros He Hok p c' Hp Hc'.
  destruct (evolves_cell_at_rev _ _ _ _ _ He Hc') as (c & Hc & _ & -> & _).
  rewrite (Hok p c Hp Hc). unfold adjacent_mines. do 2 f_equal.
  apply list_filter_iff. intros q.
  by rewrite (mine_at_evolves width _ _ q He).
Qed.

Lemma flags_on_mines_at cells q :
  flags_on_mines cells → state_at cells q = Some FLAGGED → mine_at cells q.
Proof.
  unfold state_at, mine_at, cell_at. intros Hf Hq.
  destruct (load cells (index q)) as [c|] eqn:Hc; [|done].
  apply load_Some in Hc as [_ Hl]. simpl in *. f_equal.
  apply (Forall_lookup_1 _ _ _ _ Hf Hl). congruence.
Qed.

(** Where the counts are right and every flag is on a mine, a cell with as
    many flagged neighbours as its count has all its adjacent mines
    flagged: none of its [COVERED] neighbours is a mine. *)
Lemma chord_is_safe cells p c q :
  counts_ok cells → flags_on_mines cells → in_grid p →
  cell_at cells p = Some c →
  count_flags width cells (neighbors c) (around p) = Some 0 →
  q ∈ around p → state_at cells q = Some COVERED → ¬ mine_at cells q.
Proof.
  intros Hok Hf Hp Hc Hfr Hq Hcov Hm.
  apply count_flags_spec in Hfr.
  pose proof (Hok p c Hp Hc) as Hn.
  rewrite <- around_adjacent_mines in Hn.
  set (F := filter (λ q, state_at cells q = Some FLAGGED) (around p)) in *.
  set (M := filter (mine_at cells) (around p)) in *.
  assert (F ⊆+ M) as Hsub.
  { apply NoDup_submseteq; [apply NoDup_filter, NoDup_around|].
    intros r [Hr Hin]%list_elem_of_filter. apply list_elem_of_filter.
    split; [by apply flags_on_mines_at|done]. }
  assert (F ≡ₚ M) as Hperm by (apply submseteq_length_Permutation; [done|lia]).
  assert (q ∈ F) as HqF.
  { rewrite Hperm. by apply list_elem_of_filter. }
  apply list_elem_of_filter in HqF as [HqF _]. congruence.
Qed.

Lemma count_flags_evolves cells cells' start l fr :
  evolves cells cells' →
  count_flags width cells start l = Some fr →
  count_flags width cells' start l = Some fr.
Proof.
  intros He. unfold count_flags. revert start.
  induction l as [|q l IH]; intros start H; simpl in *; [done|].
  destruct (cell_at cells q) as [c|] eqn:Hc; simpl in H; [|done].
  destruct (evolves_cell_at _ _ _ _ _ He Hc) as (c' & -> & _ & _ & Hst).
  simpl. apply IH.
  destruct (decide (state c = FLAGGED)) as [E|E].
  - rewrite decide_True; [done|]. destruct Hst as [->|[E' _]]; congruence.
  - rewrite decide_False; [done|].
    destruct Hst as [->|[_ ->]]; [done|]. by destruct (is_mine c).
Qed.

Lemma no_new_explosion_refl cells : no_new_explosion cells cells.
Proof. apply Forall_Forall2_diag, Forall_forall. done. Qed.

Lemma no_new_explosion_trans cells1 cells2 cells3 :
  no_new_explosion cells1 cells2 → no_new_explosion cells2 cells3 →
  no_new_explosion cells1 cells3.
Proof. apply Forall2_compose. auto. Qed.

(** [uncover] explodes nothing when the counts are right, every flag is on
    a mine and the cell it is called on is not a [COVERED] mine. *)
Lemma uncover_calm fuel p cells cells' :
  counts_ok cells → flags_on_mines cells → in_grid p →
  (∀ c, cell_at cells p = Some c → state c = COVERED → is_mine c = false) →
  uncover fuel p cells = Some cells' →
  no_new_explosion cells cells'.
Proof.
  revert p cells cells'. induction fuel as [|fuel IH];
    intros p cells cells' Hok Hf Hp Hsafe H; simpl in H; [done|].
  destruct (cell_at cells p) as [c|] eqn:Hc; simpl in H; [|done].
  set (R := λ s1 s2 : list cell, evolves s1 s2 ∧ no_new_explosion s1 s2).
  assert (∀ s, R s s) as Rrefl
    by (split; [apply evolves_refl|apply no_new_explosion_refl]).
  assert (∀ s1 s2 s3, R s1 s2 → R s2 s3 → R s1 s3) as Rtrans.
  { intros s1 s2 s3 [? ?] [? ?].
    split; [by eapply evolves_trans|by eapply no_new_explosion_trans]. }
  assert (∀ s1 a s2, evolves cells s1 → in_grid a → ¬ mine_at s1 a →
            uncover fuel a s1 = Some s2 → R s1 s2) as Hcall.
  { intros s1 a s2 He Ha Hm E. split; [by eapply uncover_evolves|].
    eapply IH; [by eapply counts_ok_evolves|by eapply flags_on_mines_evolves
               |done| |done].
    intros c' Hc' _. unfold mine_at in Hm. rewrite Hc' in Hm. simpl in Hm.
    destruct (is_mine c'); [by destruct Hm|done]. }
  destruct (state c) eqn:Hst.
  - assert (is_mine c = false) as Hm by (by apply Hsafe).
    rewrite Hm in H.
    assert (R cells (store cells (index p) (set_state c UNCOVERED)))
      as Hstore.
    { split.
      - eapply evolves_store; [done|]. unfold cell_evolves. simpl.
        rewrite Hst, Hm. tauto.
      - unfold cell_at in Hc. apply load_Some in Hc as [_ Hl].
        by eapply Forall2_store. }
    case_decide as Hz; [|injection H as <-; apply Hstore].
    eapply no_new_explosion_trans; [apply Hstore|].
    eapply (for_each_inv R (λ _ _, True)); [done..| |done].
    intros a s1 s2 Ha [He _] E. split; [|done].
    assert (evolves cells s1) as He'
      by (eapply evolves_trans; [apply Hstore|done]).
    eapply Hcall; [done|by eapply around_in_grid| |done].
    rewrite <- (mine_at_evolves width _ _ a He').
    eapply zero_at_no_mine; [done..| |done].
    unfold zero_at. rewrite Hc. simpl. by rewrite Hz.
  - destruct (count_flags _ _ _ _) as [fr|] eqn:Hfr; simpl in H; [|done].
    case_decide as Hz; [|injection H as <-; apply no_new_explosion_refl].
    subst fr.
    eapply (for_each_inv R (λ _ _, True)); [done..| |done].
    intros a s1 s2 Ha [He _] E. split; [|done]. simpl in E.
    destruct (cell_at s1 a) as [c'|] eqn:Hc'; simpl in E; [|done].
    case_decide as Hcov; [|injection E as <-; apply Rrefl].
    eapply Hcall; [done|by eapply around_in_grid| |done].
    destruct (evolves_cell_at _ _ _ _ _ He Hc) as (c1 & Hc1 & _ & Hn1 & _).
    eapply (chord_is_safe s1 p c1);
      [by eapply counts_ok_evolves|by eapply flags_on_mines_evolves|done..| |done|].
    + rewrite Hn1. by eapply count_flags_evolves.
    + unfold state_at. rewrite Hc'. simpl. by rewrite Hcov.
  - injection H as <-. apply no_new_explosion_refl.
  - injection H as <-. apply no_new_explosion_refl.
Qed.


(** X3. As long as every flag is on a mine and the counts are right, no
    call of [uncover] explodes anything, through cascade or chord, unless
    it is made on a [COVERED] mine itself; and the board it returns has
    again every flag on a mine and the right counts. *)
Theorem no_explosion_with_right_flags cells p :
  sized cells → counts_ok cells → flags_on_mines cells → in_grid p →
  ¬ (mine_at cells p ∧ state_at cells p = Some COVERED) →
  ∃ cells',
    reveal p cells = Some cells' ∧
    no_new_explosion cells cells' ∧
    flags_on_mines cells' ∧
    counts_ok cells'.
Proof.
  intros Hs Hok Hf Hp Hsafe.
  destruct (uncover_enough width height (2 * covered cells + 1) p cells
              Hs Hp (need_le _ _ _)) as [cells' Hu].
  pose proof (uncover_evolves _ _ _ _ _ _ Hu) as He.
  exists cells'. split_and!; [done| |by eapply flags_on_mines_evolves
                             |by eapply counts_ok_evolves].
  eapply uncover_calm; [done..| |done].
  intros c Hc Hst. destruct (is_mine c) eqn:Hm; [|done].
  destruct Hsafe. unfold mine_at, state_at. rewrite Hc. simpl.
  by rewrite Hm, Hst.
Qed.

(** ** [calculate_neighbors] *)

Lemma cells_eq_on_grid cells1 cells2 :
  sized cells1 → sized cells2 → 0 ≤ width →
  (∀ p, in_grid p → cell_at cells1 p = cell_at cells2 p) →
  cells1 = cells2.
Proof.
  intros Hs1 Hs2 Hw Heq.
  apply (inj (fmap Some)).
  rewrite <- !(cells_all_cells width height) by done.
  apply Forall_fmap_ext_1, Forall_forall.
  intros p Hp%elem_of_all_cells. by apply Heq.
Qed.

(** X4. The counts that [calculate_neighbors] writes depend on the mines
    only: a second run on its result changes nothing. *)
Theorem calculate_neighbors_twice cells cells' :
  sized cells → 0 ≤ width →
  calculate_neighbors width height cells = Some cells' →
  calculate_neighbors width height cells' = Some cells'.
Proof.
  intros Hs Hw H.
  destruct (calculate_neighbors_spec _ _ _ _ H) as [Hsame Hok].
  assert (sized cells') as Hs' by (by eapply same_mines_sized).
  destruct (calculate_neighbors_is_Some _ _ cells' Hs') as [cells'' H'].
  rewrite H'. f_equal.
  destruct (calculate_neighbors_spec _ _ _ _ H') as [Hsame' Hok'].
  apply cells_eq_on_grid; [by eapply same_mines_sized|done..|].
  intros p Hp.
  destruct (cell_at_is_Some _ _ cells' p Hs' Hp) as [c Hc].
  destruct (same_mines_cell_at _ _ _ _ _ Hsame' Hc) as (c' & Hc' & Hm & Hst).
  rewrite Hc, Hc'. f_equal.
  pose proof (Hok p c Hp Hc) as Hn. pose proof (Hok' p c' Hp Hc') as Hn'.
  rewrite <- (same_mines_adjacent_mines _ _ _ _ _ Hsame') in Hn'.
  destruct c, c'. simpl in *. congruence.
Qed.

(** ** [generate_mines] *)

Lemma generate_mines_placed cells start rs cells' rs' :
  Forall (λ c, is_mine c = false) cells → in_grid start → 0 ≤ num_mines →
  generate_mines width height num_mines rs start cells = Some (cells', rs') →
  ∃ picks, placed width height start cells num_mines (cells', picks).
Proof.
  intros Hnone Hstart Hn Hgen. unfold generate_mines in Hgen.
  pose proof (generate_trace_loop width height num_mines rs start 0 (cells, []))
    as Htr.
  simpl in Htr. rewrite Hgen in Htr. simpl in Htr.
  destruct (generate_trace width height num_mines rs start 0 (cells, []))
    as [[cells'' picks]|] eqn:E; [|done].
  simpl in Htr. injection Htr as ->. exists picks.
  assert (0 < width ∧ 0 < height) as [Hw Hh]
    by (unfold in_grid in Hstart; lia).
  eapply generate_trace_placed; [done..| |done].
  unfold placed. simpl. split_and!.
  - apply same_states_refl.
  - by rewrite mines_none.
  - done.
  - apply NoDup_nil_2.
  - intros q Hq. by apply elem_of_nil in Hq.
  - intros q Hq. rewrite elem_of_nil. split; [|done].
    unfold mine_at, cell_at. intros Hm.
    destruct (load cells (index q)) as [c|] eqn:Hc; [|done].
    apply load_Some in Hc as [_ Hl].
    pose proof (Forall_lookup_1 _ _ _ _ Hnone Hl) as Hf. simpl in *.
    congruence.
Qed.

Lemma generate_loop_reads rs start i cells cells' rs' :
  i ≤ num_mines →
  generate_loop width height num_mines rs start i cells = Some (cells', rs') →
  rs' `suffix_of` rs ∧
  2 * (num_mines - i) + Z.of_nat (length rs') ≤ Z.of_nat (length rs).
Proof.
  revert i cells.
  induction rs as [|r|r1 r2 rs IH] using list_pair_ind; intros i cells Hi H;
    simpl in H.
  - case_decide; [done|]. injection H as <- <-. split; [done|]. simpl. lia.
  - case_decide; [done|]. injection H as <- <-. split; [done|]. simpl. lia.
  - case_decide.
    2: { injection H as <- <-. split; [done|]. simpl. lia. }
    assert (∀ j cs, i ≤ j ≤ i + 1 ∧ j ≤ num_mines →
              generate_loop width height num_mines rs start j cs
              = Some (cells', rs') →
              rs' `suffix_of` r1 :: r2 :: rs ∧
              2 * (num_mines - i) + Z.of_nat (length rs')
              ≤ Z.of_nat (length (r1 :: r2 :: rs))) as Hrec.
    { intros j cs Hj E. destruct (IH j cs ltac:(lia) E) as [Hsuf Hlen].
      split; [by do 2 apply suffix_cons_r|]. simpl length. lia. }
    case_decide; [|eapply Hrec; [|done]; lia].
    destruct (cell_at cells _) as [c|]; simpl in H; [|done].
    destruct (is_mine c); (eapply Hrec; [|done]); lia.
Qed.

(** X5. [generate_mines] can only return with room for its mines: on a
    board without mines, if it returns for [num_mines ≥ 0] then
    [num_mines < width*height] (for more mines the loop never ends, whatever
    [rand()] yields).  It has then called [rand()] at least twice per mine
    and what it hands back is the unread rest of the results. *)
Theorem generate_mines_needs_room cells start rs cells' rs' :
  Forall (λ c, is_mine c = false) cells → in_grid start → 0 ≤ num_mines →
  generate_mines width height num_mines rs start cells = Some (cells', rs') →
  num_mines < width * height ∧
  rs' `suffix_of` rs ∧
  2 * num_mines + Z.of_nat (length rs') ≤ Z.of_nat (length rs).
Proof.
  intros Hnone Hstart Hn Hgen.
  destruct (generate_mines_placed _ _ _ _ _ Hnone Hstart Hn Hgen)
    as (picks & _ & _ & Hlen & Hnd & Hin & _). simpl in *.
  split.
  - assert (picks ⊆+ filter (λ q, q ≠ start) all_cells) as Hsub.
    { apply NoDup_submseteq; [done|]. intros q Hq.
      destruct (Hin q Hq) as [Hg Hne].
      apply list_elem_of_filter. split; [done|]. by apply elem_of_all_cells. }
    apply submseteq_length in Hsub.
    pose proof (free_cells width height start Hstart). lia.
  - destruct (generate_loop_reads rs start 0 cells cells' rs' Hn Hgen)
      as [Hsuf Hlen']. split; [done|lia].
Qed.


(** ** The loop of [main] *)

Lemma mines_same {R : cell → cell → Prop} cells cells' :
  (∀ c c', R c c' → is_mine c' = is_mine c) →
  Forall2 R cells cells' → mines cells' = mines cells.
Proof.
  intros HR. induction 1 as [|c c' l l' Hc _ IH]; [done|].
  by rewrite !mines_cons, IH, (HR _ _ Hc).
Qed.

Lemma counts_ok_same {R : cell → cell → Prop} cells cells' :
  (∀ c c', R c c' → is_mine c' = is_mine c ∧ neighbors c' = neighbors c) →
  Forall2 R cells cells' → counts_ok cells → counts_ok cells'.
Proof.
  intros HR H Hok.
  assert (∀ q, mine_at cells q ↔ mine_at cells' q) as Hmine.
  { intros q. unfold mine_at, cell_at, load. case_decide; [|done].
    destruct (cells !! Z.to_nat (index q)) as [c|] eqn:Hc.
    - destruct (Forall2_lookup_l _ _ _ _ _ H Hc) as (c' & -> & Hcc).
      simpl. by destruct (HR _ _ Hcc) as [-> _].
    - destruct (cells' !! Z.to_nat (index q)) as [c'|] eqn:Hc'; [|done].
      destruct (Forall2_lookup_r _ _ _ _ _ H Hc') as (c & Hc2 & _).
      congruence. }
  intros p c' Hp Hc'. unfold cell_at in Hc'. apply load_Some in Hc' as [H0 Hl'].
  destruct (Forall2_lookup_r _ _ _ _ _ H Hl') as (c & Hl & Hcc).
  destruct (HR _ _ Hcc) as [_ ->].
  rewrite (Hok p c Hp) by (by apply load_Some).
  unfold adjacent_mines. do 2 f_equal. apply list_filter_iff.
  intros q. by rewrite Hmine.
Qed.

Lemma well_formed_zeroed :
  well_formed width height num_mines false (zeroed width height).
Proof.
  unfold well_formed, exploded_are_mines, fresh, zeroed. split_and!;
    apply Forall_forall; intros c ->%elem_of_replicate_inv; simpl;
    intuition congruence.
Qed.

Lemma well_formed_flag g cells cells' :
  Forall2 cell_flags cells cells' →
  well_formed width height num_mines g cells →
  well_formed width height num_mines g cells'.
Proof.
  intros Hf (Hx & Hu & Hg). split_and!.
  - eapply Forall2_Forall_r; [|exact Hf|exact Hx].
    intros c c' (Hm & _ & Hst) Hc Hc'. rewrite Hm. apply Hc.
    destruct Hst as [<-|[[_ E]|[_ E]]]; [done|congruence..].
  - eapply Forall2_Forall_r; [|exact Hf|exact Hu].
    intros c c' (Hm & _ & Hst) Hc Hc'. rewrite Hm. apply Hc.
    destruct Hst as [<-|[[_ E]|[_ E]]]; [done|congruence..].
  - destruct g.
    + destruct Hg as [Hmines Hok]. split.
      * assert (mines cells' = mines cells) as ->; [|done].
        eapply mines_same; [|exact Hf]. by intros c c' (? & _).
      * eapply counts_ok_same; [|exact Hf|done].
        by intros c c' (? & ? & _).
    + eapply Forall2_Forall_r; [|exact Hf|exact Hg].
      intros c c' (Hm & Hn & Hst) (Hc1 & Hc2 & Hc3).
      split_and!; [congruence..|].
      destruct Hst as [->|[[_ ->]|[_ ->]]]; tauto.
Qed.

Lemma well_formed_evolves cells cells' :
  evolves cells cells' →
  well_formed width height num_mines true cells →
  well_formed width height num_mines true cells'.
Proof.
  intros He (Hx & Hu & Hmines & Hok). split_and!.
  - eapply Forall2_Forall_r; [|exact He|exact Hx].
    intros c c' (Hm & _ & Hst) Hc Hc'.
    rewrite Hm. destruct Hst as [E|[_ E]]; [apply Hc; congruence|].
    rewrite E in Hc'. by destruct (is_mine c).
  - eapply Forall2_Forall_r; [|exact He|exact Hu].
    intros c c' (Hm & _ & Hst) Hc Hc'.
    rewrite Hm. destruct Hst as [E|[_ E]]; [apply Hc; congruence|].
    rewrite E in Hc'. by destruct (is_mine c).
  - assert (mines cells' = mines cells) as ->; [|done].
    eapply mines_same; [|exact He]. by intros c c' (? & _).
  - by eapply counts_ok_evolves.
Qed.

(** The board on which the first [uncover] of a game runs. *)
Lemma generated_board start rs cells cells1 rs1 cells2 :
  sized cells → fresh cells → in_grid start → 0 ≤ num_mines →
  generate_mines width height num_mines rs start cells = Some (cells1, rs1) →
  calculate_neighbors width height cells1 = Some cells2 →
  sized cells2 ∧
  well_formed width height num_mines true cells2 ∧
  ¬ mine_at cells2 start ∧
  Forall2 (λ c c', state c' = state c) cells cells2.
Proof.
  intros Hs Hfresh Hstart Hn Hgen Hcalc.
  assert (Forall (λ c, is_mine c = false) cells) as Hnone
    by (eapply Forall_impl; [done|]; by intros c (? & _)).
  destruct (generate_mines_placed _ _ _ _ _ Hnone Hstart Hn Hgen)
    as (picks & Hsame & Hmines & _ & _ & Hin & Hmine). simpl in *.
  destruct (calculate_neighbors_spec _ _ _ _ Hcalc) as [Hsame2 Hok].
  assert (Forall2 (λ c c', state c' = state c) cells cells2) as Hst.
  { eapply Forall2_compose; [|done..].
    intros a b c [Hab _] [_ Hbc]. congruence. }
  assert (Forall (λ c, state c = COVERED ∨ state c = FLAGGED) cells2) as Hcf.
  { eapply Forall2_Forall_r; [|exact Hst|exact Hfresh].
    intros c c' E (_ & _ & Hc). simpl in E. by rewrite E. }
  split; [eapply same_mines_sized; [done|]; by eapply Forall2_sized|].
  split; [|split; [|done]].
  - unfold well_formed, exploded_are_mines. split_and!.
    + eapply Forall_impl; [exact Hcf|]. intros c [E|E] E'; congruence.
    + eapply Forall_impl; [exact Hcf|]. intros c [E|E] E'; congruence.
    + assert (mines cells2 = mines cells1) as ->; [|done].
      eapply mines_same; [|exact Hsame2]. by intros c c' [? _].
    + done.
  - rewrite <- (same_mines_mine_at width _ _ start Hsame2).
    intros Hm. apply Hmine in Hm; [|done]. by destruct (Hin _ Hm).
Qed.


Lemma ensure_generated_board s s1 :
  0 ≤ num_mines →
  sized (s_cells s) → in_grid (s_cursor s) →
  well_formed width height num_mines (s_generated s) (s_cells s) →
  ensure_generated width height num_mines s = Some s1 →
  s_generated s1 = true ∧ s_cursor s1 = s_cursor s ∧
  sized (s_cells s1) ∧
  well_formed width height num_mines true (s_cells s1) ∧
  (s_generated s = false →
   ¬ mine_at (s_cells s1) (s_cursor s) ∧
   Forall2 (λ c c', state c' = state c) (s_cells s) (s_cells s1)).
Proof.
  intros Hn Hs Hc Hwf H. unfold ensure_generated in H.
  destruct (s_generated s) eqn:Hg.
  - injection H as <-. by rewrite Hg.
  - destruct (generate_mines _ _ _ _ _ _) as [[cells1 rs1]|] eqn:Hgen;
      simpl in H; [|done].
    destruct (calculate_neighbors _ _ _) as [cells2|] eqn:Hcalc;
      simpl in H; [|done].
    injection H as <-. simpl.
    destruct Hwf as (_ & _ & Hfresh).
    destruct (generated_board _ _ _ _ _ _ Hs Hfresh Hc Hn Hgen Hcalc)
      as (? & ? & ? & ?).
    done.
Qed.

Lemma handle_key_well_formed k s s' :
  0 ≤ num_mines →
  sized (s_cells s) → in_grid (s_cursor s) →
  well_formed width height num_mines (s_generated s) (s_cells s) →
  handle_key width height num_mines k s = Some s' →
  well_formed width height num_mines (s_generated s') (s_cells s').
Proof.
  intros Hn Hs Hc Hwf. unfold handle_key.
  destruct (s_cursor s) as [x y] eqn:Hcur.
  destruct k; try (intros [= <-]; try case_decide; done).
  - intros H.
    destruct (ensure_generated _ _ _ s) as [s1|] eqn:Hgen; simpl in H; [|done].
    destruct (reveal _ _) as [cells'|] eqn:Hrev; simpl in H;
      [|done].
    injection H as <-. simpl.
    rewrite <- Hcur in Hc.
    destruct (ensure_generated_board _ _ Hn Hs Hc Hwf Hgen)
      as (-> & _ & _ & Hwf1 & _).
    eapply well_formed_evolves; [|done]. by eapply uncover_evolves.
  - intros H.
    destruct (flag _ _ _) as [cells'|] eqn:Hflag; simpl in H; [|done].
    injection H as <-. simpl.
    eapply well_formed_flag; [|done]. by eapply flag_cell_flags.
Qed.

(** ** Sizes whose product does not fit an [int] *)

Lemma handle_key_length k s s' :
  handle_key width height num_mines k s = Some s' →
  length (s_cells s') = length (s_cells s).
Proof.
  unfold handle_key. destruct (s_cursor s) as [x y] eqn:Hcur.
  destruct k; try (intros [= <-]; try case_decide; done).
  - intros H.
    destruct (ensure_generated _ _ _ s) as [s1|] eqn:Hgen; simpl in H; [|done].
    destruct (reveal _ _) as [cells'|] eqn:Hrev; simpl in H; [|done].
    injection H as <-. simpl.
    apply uncover_evolves, Forall2_length in Hrev. rewrite <- Hrev.
    destruct (ensure_generated_prepared _ _ _ _ _ Hgen) as [_ Hp].
    destruct (s_generated s); [by subst|]. symmetry. by eapply Forall2_length.
  - intros H.
    destruct (flag _ _ _) as [cells'|] eqn:Hflag; simpl in H; [|done].
    injection H as <-. simpl. symmetry.
    eapply Forall2_length. by eapply flag_cell_flags.
Qed.

(** [draw] reads every cell of the grid. *)
Lemma draw_cells_read cells l st st' q :
  for_each (draw_cell width cells) l st = Some st' → q ∈ l →
  is_Some (cell_at cells q).
Proof.
  revert st. induction l as [|a l IH]; intros st H Hq;
    [by apply elem_of_nil in Hq|].
  simpl in H. destruct (draw_cell width cells a st) as [st1|] eqn:E; [|done].
  apply elem_of_cons in Hq as [->|Hq]; [|by eapply IH].
  unfold draw_cell in E. destruct (cell_at cells a); [by eexists|done].
Qed.

(** When [height*width] does not fit, some cell of the grid lies outside
    the array that [main] allocates. *)
Lemma zeroed_short :
  0 < width → 0 < height → INT_MAX < height * width →
  ∃ q, in_grid q ∧
       ∀ cells, length cells = length (zeroed width height) →
                cell_at cells q = None.
Proof.
  intros Hw Hh Hf.
  set (n := Z.max 0 (int_mul height width)).
  pose proof (wrap_range (height * width)) as Hr.
  fold (int_mul height width) in Hr.
  assert (0 ≤ n < height * width) as Hn by (unfold n; lia).
  pose proof (Z.mod_pos_bound n width Hw) as Hm.
  pose proof (Z.div_mod n width ltac:(lia)) as Hd.
  exists (n mod width, n / width). split.
  - unfold in_grid. simpl. split_and!; try lia.
    + apply Z.div_pos; lia.
    + apply Z.div_lt_upper_bound; lia.
  - intros cells Hl. unfold cell_at, index, load. simpl.
    replace (n / width * width + n mod width) with n by lia.
    rewrite decide_True by lia. apply lookup_ge_None_2.
    rewrite Hl. unfold zeroed. rewrite length_replicate. unfold n. lia.
Qed.

(** Then the first turn of the loop reads outside the array, in [draw] at
    the latest. *)
Lemma step_overflow k s :
  0 < width → 0 < height → INT_MAX < height * width →
  length (s_cells s) = length (zeroed width height) →
  step width height num_mines k s = None.
Proof.
  intros Hw Hh Hf Hl.
  destruct (zeroed_short Hw Hh Hf) as (q & Hq & Hnone).
  destruct (step _ _ _ k s) as [s'|] eqn:Hstep; [|done]. exfalso.
  unfold step in Hstep.
  destruct (handle_key _ _ _ _ _) as [s1|] eqn:Hk; simpl in Hstep; [|done].
  destruct (draw _ _ _ _ _) as [scr|] eqn:Hd; simpl in Hstep; [|done].
  unfold draw, draw_loop in Hd.
  destruct (for_each _ _ _) as [st'|] eqn:E; [|done].
  destruct (draw_cells_read _ _ _ _ q E) as [c Hc];
    [by apply elem_of_all_cells|].
  rewrite Hnone in Hc; [done|].
  rewrite (handle_key_length _ _ _ Hk).
  unfold reset_if_new. by destruct (s_new_game s).
Qed.

Lemma reachable_overflow s :
  0 < width → 0 < height → INT_MAX < height * width →
  reachable width height num_mines s → ∃ rs, s = initial width height rs.
Proof.
  intros Hw Hh Hf (rs & keys & Hrun). exists rs.
  destruct keys as [|k keys]; [by injection Hrun|].
  unfold run in Hrun. simpl in Hrun.
  by rewrite step_overflow in Hrun.
Qed.

(** A turn that runs to its end shows that the product fits. *)
Lemma step_fits k s s' :
  0 < width → 0 < height →
  reachable width height num_mines s →
  step width height num_mines k s = Some s' →
  height * width ≤ INT_MAX.
Proof.
  intros Hw Hh Hr Hstep.
  destruct (decide (height * width ≤ INT_MAX)) as [|Hf]; [done|].
  destruct (reachable_overflow s Hw Hh) as [rs ->]; [lia|done|].
  rewrite step_overflow in Hstep; [done..|lia|done].
Qed.

(** ** The board of a running game *)

Lemma reachable_well_formed s :
  0 < width → 0 < height → height * width ≤ INT_MAX → 0 ≤ num_mines →
  reachable width height num_mines s →
  sized (s_cells s) ∧ in_grid (s_cursor s) ∧
  well_formed width height num_mines (s_generated s) (s_cells s).
Proof.
  intros Hw Hh Hf Hn (rs & keys & Hrun). unfold run in Hrun.
  set (P := λ s : session,
         sized (s_cells s) ∧ in_grid (s_cursor s) ∧
         well_formed width height num_mines (s_generated s) (s_cells s)).
  apply (for_each_inv (λ s1 s2, P s1 → P s2) (λ _ _, True)) in Hrun.
  - apply Hrun. unfold P. simpl. split_and!.
    + by apply sized_zeroed.
    + unfold in_grid. simpl. lia.
    + apply well_formed_zeroed.
  - done.
  - auto.
  - done.
  - intros k s1 s2 _ _ Hstep. split; [|done]. intros (Hs & Hc & Hwf).
    destruct (s_game_active s1); [|by injection Hstep as <-].
    unfold step in Hstep.
    destruct (handle_key _ _ _ _ _) as [s3|] eqn:Hk; simpl in Hstep; [|done].
    destruct (draw _ _ _ _ _) as [scr|]; simpl in Hstep; [|done].
    injection Hstep as <-. unfold P. simpl.
    assert (P (reset_if_new width height s1)) as (Hs0 & Hc0 & Hwf0).
    { unfold P, reset_if_new. destruct (s_new_game s1); [|done]. simpl.
      split_and!; [by apply sized_zeroed|done|apply well_formed_zeroed]. }
    destruct (handle_key_sized _ _ _ _ _ _ Hs0 Hc0 Hk) as [? ?].
    split_and!; [done..|].
    exact (handle_key_well_formed _ _ _ Hn Hs0 Hc0 Hwf0 Hk).
Qed.

Lemma reachable_board s :
  0 < width → 0 < height → 0 ≤ num_mines →
  reachable width height num_mines s →
  well_formed width height num_mines (s_generated s) (s_cells s).
Proof.
  intros Hw Hh Hn Hr.
  destruct (decide (height * width ≤ INT_MAX)) as [Hf|Hf].
  - by apply reachable_well_formed.
  - destruct (reachable_overflow s Hw Hh) as [rs ->]; [lia|done|].
    apply well_formed_zeroed.
Qed.

(** A turn of the loop reads nothing outside the array. *)
Lemma step_is_Some k s :
  sized (s_cells (reset_if_new width height s)) →
  in_grid (s_cursor s) →
  (k = KEY_UNCOVER → s_generated (reset_if_new width height s) = false →
   is_Some (generate_mines width height num_mines (s_rand s) (s_cursor s)
              (s_cells (reset_if_new width height s)))) →
  is_Some (step width height num_mines k s).
Proof.
  intros Hs Hc Hgen. unfold step.
  set (s0 := reset_if_new width height s) in *.
  assert (s_cursor s0 = s_cursor s ∧ s_rand s0 = s_rand s) as [Hc0 Hr0]
    by (unfold s0, reset_if_new; by destruct (s_new_game s)).
  rewrite <- Hc0 in Hc. rewrite <- Hc0, <- Hr0 in Hgen. clear Hc0 Hr0.
  assert (is_Some (handle_key width height num_mines k s0)) as [s1 Hk].
  { unfold handle_key. destruct (s_cursor s0) as [x y] eqn:Hcur.
    destruct k; try by eexists.
    - assert (∃ s1, ensure_generated width height num_mines s0 = Some s1
                    ∧ sized (s_cells s1) ∧ s_cursor s1 = (x, y))
        as (s1 & -> & Hs1 & Hc1).
      { unfold ensure_generated. destruct (s_generated s0) eqn:Hg.
        - exists s0. by rewrite Hcur.
        - destruct Hgen as [[cells1 rs1] Hg1]; [done..|].
          rewrite Hcur, Hg1. simpl.
          assert (sized cells1) as Hs1.
          { eapply Forall2_sized; [|exact Hs].
            by eapply generate_loop_prepared. }
          destruct (calculate_neighbors_is_Some _ _ cells1 Hs1) as [cells2 Hc2].
          rewrite Hc2. simpl. eexists. split; [done|]. simpl.
          split; [|done]. eapply same_mines_sized; [|done].
          by eapply calculate_neighbors_spec. }
      simpl. rewrite Hc1.
      destruct (uncover_enough width height (2 * covered (s_cells s1) + 1)
                  (x, y) (s_cells s1) Hs1 Hc (need_le _ _ _)) as [cells' Hu].
      unfold reveal. rewrite Hu. by eexists.
    - rewrite ?Hcur.
      destruct (cell_at_is_Some _ _ (s_cells s0) (x, y) Hs Hc) as [c Hcell].
      rewrite (flag_spec _ _ _ _ Hcell). by eexists. }
  rewrite Hk. simpl.
  destruct (handle_key_sized _ _ _ _ _ _ Hs Hc Hk) as [Hs1 _].
  unfold draw, draw_loop.
  destruct (draw_cells_is_Some width height (s_cells s1) all_cells
              (DrawVars false num_mines (height * width - num_mines),
               s_screen s1) Hs1) as [[v scr] ->];
    [by intros q ?%elem_of_all_cells|].
  by eexists.
Qed.

(** X6. When [height*width] fits an [int] the loop of [main] never reads
    outside the array: in every state it reaches the array has
    [height*width] cells and the cursor is on the grid, and a turn on any
    key runs to its end, given for the first uncover of a game that
    [rand()] lets [generate_mines] return.  ([step_overflow]: when the
    product does not fit, the first turn already reads outside the
    array.) *)
Theorem main_loop_in_bounds s :
  0 < width → 0 < height → height * width ≤ INT_MAX →
  reachable width height num_mines s →
  sized (s_cells s) ∧ in_grid (s_cursor s) ∧
  ∀ k,
    (k = KEY_UNCOVER → s_generated (reset_if_new width height s) = false →
     is_Some (generate_mines width height num_mines (s_rand s) (s_cursor s)
                (s_cells (reset_if_new width height s)))) →
    is_Some (step width height num_mines k s).
Proof.
  intros Hw Hh Hf Hr.
  destruct (reachable_sized _ _ _ _ Hw Hh Hf Hr) as [Hs Hc].
  split_and!; [done..|]. intros k Hgen. apply step_is_Some; [|done..].
  unfold reset_if_new. destruct (s_new_game s); [by apply sized_zeroed|done].
Qed.

(** X7. In every state the game reaches, every [EXPLODED] cell is a mine
    and no [UNCOVERED] cell is; before the mines are placed the board holds
    no mine, no count and only [COVERED] and [FLAGGED] cells; once they are
    placed it holds exactly [num_mines] mines and every cell of the grid
    has the number of its adjacent mines. *)
Theorem game_board_well_formed s :
  0 < width → 0 < height → 0 ≤ num_mines →
  reachable width height num_mines s →
  well_formed width height num_mines (s_generated s) (s_cells s).
Proof. intros Hw Hh Hn Hr. by apply reachable_board. Qed.


(** ** The first uncover of a game *)

Lemma first_uncover_board s s' :
  0 < width → 0 < height → 0 ≤ num_mines →
  reachable width height num_mines s →
  s_generated (reset_if_new width height s) = false →
  step width height num_mines KEY_UNCOVER s = Some s' →
  ∃ cells2,
    sized cells2 ∧ in_grid (s_cursor s) ∧
    well_formed width height num_mines true cells2 ∧
    ¬ mine_at cells2 (s_cursor s) ∧
    Forall2 (λ c c', state c' = state c)
            (s_cells (reset_if_new width height s)) cells2 ∧
    reveal (s_cursor s) cells2 = Some (s_cells s') ∧
    s_generated s' = true ∧
    draw width height num_mines (s_cells s') (s_screen s) = Some (s_screen s').
Proof.
  intros Hw Hh Hn Hr Hg Hstep.
  pose proof (step_fits _ _ _ Hw Hh Hr Hstep) as Hf.
  destruct (reachable_well_formed s Hw Hh Hf Hn Hr) as (Hs & Hc & Hwf).
  set (s0 := reset_if_new width height s) in *.
  assert (sized (s_cells s0) ∧ s_cursor s0 = s_cursor s
          ∧ s_screen s0 = s_screen s
          ∧ well_formed width height num_mines (s_generated s0) (s_cells s0))
    as (Hs0 & Hc0 & Hscr0 & Hwf0).
  { unfold s0, reset_if_new. destruct (s_new_game s); [|done]. simpl.
    split_and!; [by apply sized_zeroed|done..|apply well_formed_zeroed]. }
  rewrite <- Hc0 in *.
  unfold step in Hstep. fold s0 in Hstep.
  destruct (handle_key _ _ _ _ s0) as [s1|] eqn:Hk; simpl in Hstep; [|done].
  destruct (draw _ _ _ _ _) as [scr|] eqn:Hd; simpl in Hstep; [|done].
  injection Hstep as <-. simpl.
  unfold handle_key in Hk. destruct (s_cursor s0) as [x y] eqn:Hcur.
  destruct (ensure_generated _ _ _ s0) as [s2|] eqn:Hgen; simpl in Hk; [|done].
  destruct (reveal _ _) as [cells'|] eqn:Hrev; simpl in Hk; [|done].
  injection Hk as <-. simpl in *.
  rewrite <- Hcur in Hc.
  destruct (ensure_generated_board _ _ Hn Hs0 Hc Hwf0 Hgen)
    as (Hg2 & Hc2 & Hs2 & Hwf2 & Hfirst).
  destruct (Hfirst Hg) as [Hm Hst].
  rewrite Hcur in *. rewrite Hc2 in Hrev.
  assert (s_screen s2 = s_screen s) as Hscr2.
  { unfold ensure_generated in Hgen. rewrite Hg in Hgen.
    destruct (generate_mines _ _ _ _ _ _); simpl in Hgen; [|done].
    destruct (calculate_neighbors _ _ _); simpl in Hgen; [|done].
    by injection Hgen as <-. }
  rewrite Hscr2 in Hd.
  exists (s_cells s2). split_and!; done.
Qed.

(** X8. The first uncover of a game never hits a mine: when the mines are
    not yet placed and the cell under the cursor is [COVERED], the turn
    places them and leaves that cell [UNCOVERED], not a mine, whatever
    [rand()] yields and whatever flags are on the board. *)
Theorem first_uncover_is_no_mine s s' :
  0 < width → 0 < height → 0 ≤ num_mines →
  reachable width height num_mines s →
  s_generated (reset_if_new width height s) = false →
  state_at (s_cells (reset_if_new width height s)) (s_cursor s)
  = Some COVERED →
  step width height num_mines KEY_UNCOVER s = Some s' →
  s_generated s' = true ∧
  state_at (s_cells s') (s_cursor s) = Some UNCOVERED ∧
  ¬ mine_at (s_cells s') (s_cursor s).
Proof.
  intros Hw Hh Hn Hr Hg Hcov Hstep.
  destruct (first_uncover_board s s' Hw Hh Hn Hr Hg Hstep)
    as (cells2 & Hs2 & Hc & Hwf & Hm & Hst & Hrev & Hg' & _).
  pose proof (uncover_evolves _ _ _ _ _ _ Hrev) as He.
  pose proof (uncover_leaves_covered _ _ _ _ _ _ Hrev) as Hout.
  split; [done|].
  destruct (cell_at_is_Some _ _ cells2 _ Hs2 Hc) as [c Hcell].
  destruct (evolves_cell_at _ _ _ _ _ He Hcell) as (c' & Hcell' & Hm' & _ & Hev).
  assert (is_mine c = false) as Hmc.
  { unfold mine_at in Hm. rewrite Hcell in Hm. simpl in Hm.
    destruct (is_mine c); [by destruct Hm|done]. }
  unfold state_at, mine_at in *. rewrite Hcell' in *. simpl in *.
  split; [|rewrite Hm', Hmc; done].
  f_equal. destruct Hev as [E|[_ E]]; [|by rewrite E, Hmc].
  destruct Hout. f_equal. rewrite E.
  (* the states of [cells2] are those of the board before the mines *)
  unfold cell_at in Hcell, Hcov. apply load_Some in Hcell as [H0 Hl].
  destruct (Forall2_lookup_r _ _ _ _ _ Hst Hl) as (c0 & Hl0 & ->).
  unfold load in Hcov. rewrite decide_True in Hcov by done.
  rewrite Hl0 in Hcov. simpl in Hcov. congruence.
Qed.

Lemma draw_lost_iff cells scr scr' :
  0 < width → 0 < height →
  draw width height num_mines cells scr = Some scr' →
  reports_lost scr' ↔ exploded_somewhere width height cells.
Proof.
  intros Hw Hh Hd. unfold draw, draw_loop in Hd.
  destruct (for_each _ _ _) as [[v scr'']|] eqn:E; [|done].
  simpl in Hd. injection Hd as ->.
  assert (all_cells ≠ []) as Hne.
  { intros E'. assert ((0, 0) ∈ all_cells) as Hin
      by (apply elem_of_all_cells; unfold in_grid; simpl; lia).
    rewrite E' in Hin. by apply elem_of_nil in Hin. }
  unfold reports_lost.
  rewrite (draw_cells_lost _ _ _ _ _ Hne E : _ ↔ gameover v = true).
  rewrite (draw_cells_gameover _ _ _ _ _ E). simpl.
  unfold exploded_somewhere. setoid_rewrite elem_of_all_cells.
  split; [intros [?|?]; done|by right].
Qed.

Lemma exploded_somewhere_lookup cells :
  exploded_somewhere width height cells →
  ∃ k c, cells !! k = Some c ∧ state c = EXPLODED.
Proof.
  intros (q & _ & Hq). unfold state_at, cell_at in Hq.
  destruct (load cells (index q)) as [c|] eqn:Hc; [|done].
  apply load_Some in Hc as [_ Hl]. simpl in Hq. injection Hq as Hq. eauto.
Qed.

(** X9. When no flag is on the board, the first uncover of a game
    explodes nothing: no cell of the grid is [EXPLODED] after the turn and
    [draw] does not print "Game Over". *)
Theorem first_uncover_without_flags s s' :
  0 < width → 0 < height → 0 ≤ num_mines →
  reachable width height num_mines s →
  s_generated (reset_if_new width height s) = false →
  no_flags (s_cells (reset_if_new width height s)) →
  step width height num_mines KEY_UNCOVER s = Some s' →
  ¬ exploded_somewhere width height (s_cells s') ∧
  ¬ reports_lost (s_screen s').
Proof.
  intros Hw Hh Hn Hr Hg Hnf Hstep.
  destruct (first_uncover_board s s' Hw Hh Hn Hr Hg Hstep)
    as (cells2 & Hs2 & Hc & (Hx & Hu & Hmines & Hok) & Hm & Hst & Hrev & _ & Hd).
  pose proof (reachable_board s Hw Hh Hn Hr) as Hwf.
  assert (Forall (λ c, state c = COVERED) cells2) as Hcov.
  { assert (fresh (s_cells (reset_if_new width height s))) as Hfresh.
    { unfold reset_if_new in *. destruct (s_new_game s).
      - apply well_formed_zeroed.
      - rewrite Hg in Hwf. apply Hwf. }
    assert (Forall (λ c, state c = COVERED)
                   (s_cells (reset_if_new width height s))) as Hc0.
    { apply Forall_forall. intros c Hin. unfold fresh, no_flags in *.
      rewrite Forall_forall in Hfresh, Hnf.
      destruct (Hfresh c Hin) as (_ & _ & [E|E]); [done|].
      by destruct (Hnf c Hin). }
    eapply Forall2_Forall_r; [|exact Hst|exact Hc0].
    intros c c' E Hc'. simpl in E. congruence. }
  assert (no_new_explosion cells2 (s_cells s')) as Hcalm.
  { eapply uncover_calm; [done| |done| |done].
    - eapply Forall_impl; [exact Hcov|]. intros c E E'. congruence.
    - intros c Hcell _. unfold mine_at in Hm. rewrite Hcell in Hm.
      simpl in Hm. destruct (is_mine c); [by destruct Hm|done]. }
  assert (¬ exploded_somewhere width height (s_cells s')) as Hnone.
  { intros (k & c' & Hl' & Hst')%exploded_somewhere_lookup.
    destruct (Forall2_lookup_r _ _ _ _ _ Hcalm Hl') as (c & Hl & Hcc).
    pose proof (Forall_lookup_1 _ _ _ _ Hcov Hl) as E. simpl in *.
    specialize (Hcc Hst'). congruence. }
  split; [done|]. by rewrite (draw_lost_iff _ _ _ Hw Hh Hd).
Qed.

(** X10. In every state the game reaches, the status row reads
    "Game Over" exactly when some cell of the grid is [EXPLODED]. *)
Theorem lost_iff_exploded s :
  0 < width → 0 < height →
  reachable width height num_mines s →
  reports_lost (s_screen s) ↔ exploded_somewhere width height (s_cells s).
Proof.
  intros Hw Hh (rs & keys & Hrun). unfold run in Hrun.
  set (P := λ s : session,
         reports_lost (s_screen s)
         ↔ exploded_somewhere width height (s_cells s)).
  apply (for_each_inv (λ s1 s2, P s1 → P s2) (λ _ _, True)) in Hrun.
  - apply Hrun. unfold P, reports_lost. simpl. split; [done|].
    intros (k & c & Hl & Hst)%exploded_somewhere_lookup.
    unfold zeroed in Hl. apply lookup_replicate_1 in Hl as [-> _]. done.
  - done.
  - auto.
  - done.
  - intros k s1 s2 _ _ Hstep. split; [|done]. intros HP.
    destruct (s_game_active s1); [|by injection Hstep as <-].
    unfold step in Hstep.
    destruct (handle_key _ _ _ _ _) as [s3|]; simpl in Hstep; [|done].
    destruct (draw _ _ _ _ _) as [scr|] eqn:Hd; simpl in Hstep; [|done].
    injection Hstep as <-. unfold P. simpl.
    by eapply draw_lost_iff.
Qed.


(** ** The status rows that [draw] leaves *)

Lemma draw_cells_unflagged cells l st st' :
  for_each (draw_cell width cells) l st = Some st' →
  unflagged_mines st'.1
  = unflagged_mines st.1
    - Z.of_nat (length (filter (λ o, state <$> o = Some FLAGGED)
                               (cell_at cells <$> l))).
Proof.
  revert st. induction l as [|q l IH]; intros st H; simpl in H.
  - injection H as <-. simpl. lia.
  - destruct (draw_cell width cells q st) as [st1|] eqn:E; [|done].
    rewrite (IH st1 H). unfold draw_cell in E.
    rewrite fmap_cons, filter_cons.
    destruct (cell_at cells q) as [c|] eqn:Hc; simpl in E; [|done].
    injection E as <-.
    destruct (state c) eqn:Hst; cbn [fst unflagged_mines];
      (rewrite decide_True by (simpl; congruence))
      || (rewrite decide_False by (simpl; congruence));
      simpl length; lia.
Qed.

Lemma flagged_Some cells :
  length (filter (λ o, state <$> o = Some FLAGGED) (Some <$> cells))
  = flagged cells.
Proof.
  unfold flagged. induction cells as [|c cells IH]; [done|].
  rewrite fmap_cons, !filter_cons. simpl.
  destruct (decide (state c = FLAGGED)).
  - rewrite decide_True by congruence. simpl. by rewrite IH.
  - rewrite decide_False by congruence. done.
Qed.

(** What the last iteration of the scan prints on row [height+1]. *)
Lemma draw_cells_last cells l st st' :
  l ≠ [] → for_each (draw_cell width cells) l st = Some st' →
  row_below st'.2
  = if gameover st'.1 then GameOver
    else if decide (uncovers_remaining st'.1 = 0) then Blank
         else UnflaggedMines (unflagged_mines st'.1).
Proof.
  intros Hne H. destruct l as [|q l _] using rev_ind; [done|]. clear Hne.
  rewrite for_each_app in H.
  destruct (for_each (draw_cell width cells) l st) as [st1|]; [|done].
  simpl in H. destruct (draw_cell width cells q st1) as [st2|] eqn:E; [|done].
  injection H as <-. unfold draw_cell in E.
  destruct (cell_at cells q) as [c|]; simpl in E; [|done].
  injection E as <-. simpl.
  destruct (state c); simpl; destruct (gameover st1.1); simpl;
    try case_decide; done.
Qed.

(** "You Win!" is on row [height] after the scan only if it was there
    before or some iteration found [uncovers_remaining] at zero. *)
Lemma draw_cells_win cells l st st' :
  for_each (draw_cell width cells) l st = Some st' →
  row_height st'.2 = YouWin →
  row_height st.2 = YouWin ∨
  ∃ l1 l2 st1, l = l1 ++ l2 ∧
    for_each (draw_cell width cells) l1 st = Some st1 ∧
    uncovers_remaining st1.1 = 0.
Proof.
  revert st. induction l as [|q l IH]; intros st H Hwin; simpl in H.
  - injection H as <-. by left.
  - destruct (draw_cell width cells q st) as [st1|] eqn:E; [|done].
    destruct (IH st1 H Hwin) as [Hw1|(l1 & l2 & st2 & -> & H1 & Hz)].
    + unfold draw_cell in E.
      destruct (cell_at cells q) as [c|] eqn:Hc; simpl in E; [|done].
      destruct (decide (uncovers_remaining st1.1 = 0)) as [Hz|Hz].
      * right. exists [q], l, st1. split; [done|]. split; [|done].
        simpl. unfold draw_cell. rewrite Hc. simpl. by rewrite E.
      * left. injection E as <-. simpl in *.
        destruct (state c); simpl in *; destruct (gameover st.1); simpl in *;
          try done; by rewrite decide_False in Hw1 by done.
    + right. exists (q :: l1), l2, st2. split; [done|]. split; [|done].
      simpl. by rewrite E.
Qed.

Lemma draw_scan cells scr scr' :
  sized cells → 0 < width → 0 < height →
  draw width height num_mines cells scr = Some scr' →
  ∃ v,
    draw_loop width height num_mines cells scr = Some (v, scr') ∧
    (gameover v = true ↔ exploded_somewhere width height cells) ∧
    uncovers_remaining v
    = height * width - num_mines - Z.of_nat (uncovered cells) ∧
    unflagged_mines v = num_mines - Z.of_nat (flagged cells) ∧
    row_below scr'
    = (if gameover v then GameOver
       else if decide (uncovers_remaining v = 0) then Blank
            else UnflaggedMines (unflagged_mines v)).
Proof.
  intros Hs Hw Hh Hd. unfold draw in Hd.
  destruct (draw_loop _ _ _ _ _) as [[v scr'']|] eqn:E; [|done].
  simpl in Hd. injection Hd as ->. exists v. split; [done|].
  unfold draw_loop in E.
  assert (all_cells ≠ []) as Hne.
  { intros E'. assert ((0, 0) ∈ all_cells) as Hin
      by (apply elem_of_all_cells; unfold in_grid; simpl; lia).
    rewrite E' in Hin. by apply elem_of_nil in Hin. }
  split_and!.
  - rewrite (draw_cells_gameover _ _ _ _ _ E). simpl.
    unfold exploded_somewhere. setoid_rewrite elem_of_all_cells.
    split; [intros [?|?]; done|by right].
  - pose proof (draw_cells_remaining _ _ _ _ _ E) as Hrem. simpl in Hrem.
    rewrite Hrem, cells_all_cells, uncovered_Some by (done || lia). done.
  - pose proof (draw_cells_unflagged _ _ _ _ E) as Hfl. simpl in Hfl.
    rewrite Hfl, cells_all_cells, flagged_Some by (done || lia). done.
  - apply (draw_cells_last _ _ _ _ Hne E).
Qed.

(** X11. On a board with [num_mines] mines, none of them uncovered, [draw]
    prints "Game Over" exactly when a cell of the grid is exploded; when
    none is and every cell without a mine is uncovered it prints
    "You Win!" and leaves row [height+1] blank; and "You Win!" is on the
    screen afterwards only if it was there before or every cell without a
    mine is uncovered. *)
Theorem draw_win_and_loss cells scr scr' :
  sized cells → 0 < width → 0 < height →
  Z.of_nat (mines cells) = num_mines →
  Forall (λ c, state c = UNCOVERED → is_mine c = false) cells →
  draw width height num_mines cells scr = Some scr' →
  (reports_lost scr' ↔ exploded_somewhere width height cells) ∧
  (¬ exploded_somewhere width height cells →
   Forall (λ c, is_mine c = false → state c = UNCOVERED) cells →
   reports_won scr' ∧ row_below scr' = Blank) ∧
  (reports_won scr' →
   reports_won scr ∨
   Forall (λ c, is_mine c = false → state c = UNCOVERED) cells).
Proof.
  intros Hs Hw Hh Hmines Hsafe Hd.
  destruct (draw_scan cells scr scr' Hs Hw Hh Hd)
    as (v & Hloop & Hgo & Hrem & _ & Hrow).
  destruct (draw_decides _ _ _ _ _ _ _ Hs Hw Hh Hmines Hsafe Hloop)
    as (_ & Hlost & Hzero & Hwon).
  split_and!.
  - by rewrite Hlost.
  - intros Hnone Hall.
    assert (gameover v = false) as Hg
      by (destruct (gameover v); [by destruct Hnone; apply Hgo|done]).
    apply Hzero in Hall. split; [by apply Hwon|].
    rewrite Hrow, Hg. by rewrite decide_True.
  - intros Hwin. unfold draw_loop in Hloop.
    destruct (draw_cells_win _ _ _ _ Hloop Hwin)
      as [?|(l1 & l2 & st1 & Hl & H1 & Hz)]; [by left|].
    right. apply Hzero. rewrite Hrem.
    pose proof (draw_cells_remaining _ _ _ _ _ H1) as Hrem1.
    simpl in Hrem1. rewrite Hz in Hrem1.
    pose proof (cells_all_cells width height cells Hs ltac:(lia)) as Hall.
    rewrite Hl, fmap_app in Hall.
    pose proof (uncovered_Some cells) as Hunc.
    rewrite <- Hall, filter_app, length_app in Hunc.
    destruct (uncovered_all cells Hsafe) as [Hle _].
    unfold sized in Hs. lia.
Qed.

(** X12. When no cell of the grid is exploded and the uncovered cells are
    not [height*width - num_mines] many, [draw] leaves on row [height+1]
    the counter [num_mines] less the number of flags on the board; the
    counter is negative when there are more flags than mines. *)
Theorem draw_counts_flags cells scr scr' :
  sized cells → 0 < width → 0 < height →
  ¬ exploded_somewhere width height cells →
  Z.of_nat (uncovered cells) ≠ height * width - num_mines →
  draw width height num_mines cells scr = Some scr' →
  row_below scr' = UnflaggedMines (num_mines - Z.of_nat (flagged cells)).
Proof.
  intros Hs Hw Hh Hnone Hunc Hd.
  destruct (draw_scan cells scr scr' Hs Hw Hh Hd)
    as (v & Hloop & Hgo & Hrem & Hfl & Hrow).
  assert (gameover v = false) as Hg
    by (destruct (gameover v); [by destruct Hnone; apply Hgo|done]).
  rewrite Hrow, Hg, decide_False by lia. by rewrite Hfl.
Qed.

End More.

(** ** Start-up *)

Lemma parse_opts_active opts g :
  g_game_active (foldl (λ g o, parse_opt o.1 o.2 g) g opts) = false ↔
  g_game_active g = false ∨ Exists bad_option opts.
Proof.
  revert g. induction opts as [|[k a] opts IH]; intros g; simpl.
  - rewrite Exists_nil. tauto.
  - rewrite IH, Exists_cons. unfold bad_option. simpl.
    destruct k, a; simpl; split; intros H;
      repeat match goal with
             | H : _ ∨ _ |- _ => destruct H
             | H : _ ∧ _ |- _ => destruct H
             end; try done; auto.
Qed.

Lemma last_given_snoc k d opts o :
  last_given k d (opts ++ [o])
  = match o.2 with
    | Some v => if decide (o.1 = k) then v else last_given k d opts
    | None => last_given k d opts
    end.
Proof.
  unfold last_given. rewrite omap_app. simpl.
  destruct o as [k' [v|]]; simpl.
  - case_decide; simpl; [by rewrite last_snoc|by rewrite app_nil_r].
  - case_decide; simpl; by rewrite app_nil_r.
Qed.

Lemma parse_opts_sizes opts :
  let g := foldl (λ g o, parse_opt o.1 o.2 g) initial_globals opts in
  g_width g = last_given OPT_w 20 opts ∧
  g_height g = last_given OPT_h 20 opts.
Proof.
  induction opts as [|[k a] opts [IHw IHh]] using rev_ind; [done|].
  simpl. rewrite foldl_app, !last_given_snoc. simpl.
  destruct k, a; simpl; rewrite ?decide_True, ?decide_False by done; done.
Qed.

Lemma main_setup_fields opts :
  let g := foldl (λ g o, parse_opt o.1 o.2 g) initial_globals opts in
  g_width (main_setup opts) = g_width g ∧
  g_height (main_setup opts) = g_height g ∧
  g_game_active (main_setup opts) = g_game_active g ∧
  g_num_mines (main_setup opts) = Z.quot (int_mul (g_width g) (g_height g)) 6.
Proof.
  simpl. unfold main_setup. rewrite parse_opts_custom. done.
Qed.

(** X13. For every command line that leaves a positive width and height
    whose product fits an [int], the number of mines that [main] sets lies
    in [0 ≤ num_mines < width*height]: there is room for the mines and for
    the cell of the first uncover. *)
Theorem setup_mines_fit opts :
  0 < g_width (main_setup opts) → 0 < g_height (main_setup opts) →
  g_width (main_setup opts) * g_height (main_setup opts) ≤ INT_MAX →
  0 ≤ g_num_mines (main_setup opts)
    < g_width (main_setup opts) * g_height (main_setup opts).
Proof.
  destruct (main_setup_fields opts) as (-> & -> & _ & ->).
  intros Hw Hh Hf. unfold int_mul.
  set (a := g_width _ * g_height _) in *.
  assert (0 < a) by (unfold a; nia).
  rewrite wrap_fits by (unfold INT_MIN; lia).
  split; [apply Z.quot_pos; lia|apply Z.quot_lt; lia].
Qed.

(** Without that bound the product wraps around: [-w 46341 -h 46341]
    gives a negative number of mines, and [-w 65536 -h 65537] gives 10922
    mines and an array of 65536 cells for a grid of 4295032832. *)
Example setup_wraps_around :
  g_num_mines (main_setup [(OPT_w, Some 46341); (OPT_h, Some 46341)])
  = -357913169 ∧
  g_num_mines (main_setup [(OPT_w, Some 65536); (OPT_h, Some 65537)])
  = 10922 ∧
  int_mul 65537 65536 = 65536 ∧
  65537 * 65536 = 4295032832.
Proof. by vm_compute. Qed.

(** X14. [game_active] is false after the options are parsed exactly when
    some [-h], [-w] or [-m] came with an argument that is no number; a
    later valid option does not bring it back. *)
Theorem setup_stops_on_bad_number opts :
  g_game_active (main_setup opts) = false ↔ Exists bad_option opts.
Proof.
  destruct (main_setup_fields opts) as (_ & _ & -> & _).
  rewrite parse_opts_active. simpl. split; [intros [?|?]; done|by right].
Qed.

(** X15. The width and the height of the game are the numbers of the last
    [-w] and the last [-h] that carry one, and 20 without such an option;
    an argument that is no number leaves the value as it was. *)
Theorem setup_takes_last_size opts :
  g_width (main_setup opts) = last_given OPT_w 20 opts ∧
  g_height (main_setup opts) = last_given OPT_h 20 opts.
Proof.
  destruct (main_setup_fields opts) as (-> & -> & _).
  apply parse_opts_sizes.
Qed.

(** ** Examples and instances on the 3 by 2 board *)

(** With a flag put on (2,1) before the first uncover, the cascade of that
    uncover runs the chord of (1,0) and the mine at (2,0) explodes: the
    game is lost at its first uncover. *)
Example first_uncover_with_a_flag :
  run 3 2 1
    [KEY_RIGHT; KEY_RIGHT; KEY_DOWN; KEY_FLAG;
     KEY_LEFT; KEY_LEFT; KEY_UP; KEY_UNCOVER] (initial 3 2 [2; 0]%N)
  = Some lost_at_first_uncover.
Proof. by vm_compute. Qed.

Lemma no_exploded_Forall width height cells :
  Forall (λ c, state c ≠ EXPLODED) cells →
  ¬ exploded_somewhere width height cells.
Proof.
  intros Hall (k & c & Hl & Hst)%exploded_somewhere_lookup.
  by apply (Forall_lookup_1 _ _ _ _ Hall Hl).
Qed.

Lemma reachable_initial rs : reachable 3 2 1 (initial 3 2 rs).
Proof. by exists rs, []. Qed.

Lemma uncover_only_uncovers_witness :
  length opened_more = length opened ∧
  Forall2 after_uncover opened opened_more ∧
  (covered opened_more ≤ covered opened)%nat ∧
  flagged opened_more = flagged opened ∧
  mines opened_more = mines opened.
Proof.
  apply (uncover_only_uncovers 3 2 9 (0, 0) opened opened_more).
  reflexivity.
Defined.

Lemma reveal_by_state_witness :
  (state (Cell false COVERED 0) = COVERED →
   ∃ cells',
     reveal 3 2 (0, 0) opened = Some cells' ∧
     state_at 3 cells' (0, 0) = Some UNCOVERED ∧
     (covered cells' < covered opened)%nat) ∧
  (state (Cell false COVERED 0) = FLAGGED ∨
   state (Cell false COVERED 0) = EXPLODED →
   ∀ fuel, uncover 3 2 (S fuel) (0, 0) opened = Some opened).
Proof.
  apply (reveal_by_state 3 2 opened (0, 0) (Cell false COVERED 0));
    [reflexivity|apply in_grid_3_2; lia|reflexivity].
Defined.

Lemma no_explosion_with_right_flags_witness :
  ∃ cells',
    reveal 3 2 (0, 0) opened = Some cells' ∧
    no_new_explosion opened cells' ∧
    flags_on_mines cells' ∧
    counts_ok 3 2 cells'.
Proof.
  apply (no_explosion_with_right_flags 3 2 opened (0, 0));
    [reflexivity|apply counts_ok_opened
    |apply (bool_decide_unpack _); by vm_compute
    |apply in_grid_3_2; lia|].
  intros [Hm _]. by vm_compute in Hm.
Defined.

Lemma calculate_neighbors_twice_witness :
  calculate_neighbors 3 2 opened = Some opened.
Proof.
  apply (calculate_neighbors_twice 3 2 opened opened);
    [reflexivity|lia|reflexivity].
Defined.

Lemma generate_mines_needs_room_witness :
  1 < 3 * 2 ∧
  [] `suffix_of` [2; 1]%N ∧
  2 * 1 + Z.of_nat (length (@nil N)) ≤ Z.of_nat (length [2; 1]%N).
Proof.
  apply (generate_mines_needs_room 3 2 1 (zeroed 3 2) (0, 0) [2; 1]%N
           [ zero_cell; zero_cell; zero_cell;
             zero_cell; zero_cell; Cell true COVERED 0 ] []);
    [apply (bool_decide_unpack _); by vm_compute
    |apply in_grid_3_2; lia|lia|reflexivity].
Defined.

Lemma setup_mines_fit_witness :
  0 ≤ g_num_mines (main_setup []) < g_width (main_setup []) * g_height (main_setup []).
Proof.
  apply (setup_mines_fit []); [reflexivity|reflexivity|by vm_compute].
Defined.

Lemma main_loop_in_bounds_witness :
  sized 3 2 (s_cells lost_then_cleared) ∧
  in_grid 3 2 (s_cursor lost_then_cleared) ∧
  ∀ k,
    (k = KEY_UNCOVER →
     s_generated (reset_if_new 3 2 lost_then_cleared) = false →
     is_Some (generate_mines 3 2 1 (s_rand lost_then_cleared)
                (s_cursor lost_then_cleared)
                (s_cells (reset_if_new 3 2 lost_then_cleared)))) →
    is_Some (step 3 2 1 k lost_then_cleared).
Proof.
  apply (main_loop_in_bounds 3 2 1 lost_then_cleared);
    [lia|lia|by vm_compute|apply reachable_lost_then_cleared].
Defined.

Lemma game_board_well_formed_witness :
  well_formed 3 2 1 (s_generated lost_then_cleared) (s_cells lost_then_cleared).
Proof.
  apply (game_board_well_formed 3 2 1 lost_then_cleared);
    [lia|lia|lia|apply reachable_lost_then_cleared].
Defined.

Lemma first_uncover_is_no_mine_witness :
  s_generated first_opened = true ∧
  state_at 3 (s_cells first_opened) (s_cursor (initial 3 2 [2; 1]%N))
  = Some UNCOVERED ∧
  ¬ mine_at 3 (s_cells first_opened) (s_cursor (initial 3 2 [2; 1]%N)).
Proof.
  apply (first_uncover_is_no_mine 3 2 1 (initial 3 2 [2; 1]%N) first_opened);
    [lia|lia|lia|apply reachable_initial|reflexivity..].
Defined.

Lemma first_uncover_without_flags_witness :
  ¬ exploded_somewhere 3 2 (s_cells first_opened) ∧
  ¬ reports_lost (s_screen first_opened).
Proof.
  apply (first_uncover_without_flags 3 2 1 (initial 3 2 [2; 1]%N) first_opened);
    [lia|lia|lia|apply reachable_initial|reflexivity
    |apply (bool_decide_unpack _); by vm_compute|reflexivity].
Defined.

Lemma lost_iff_exploded_witness :
  reports_lost (s_screen lost_then_cleared)
  ↔ exploded_somewhere 3 2 (s_cells lost_then_cleared).
Proof.
  apply (lost_iff_exploded 3 2 1 lost_then_cleared);
    [lia|lia|apply reachable_lost_then_cleared].
Defined.

Lemma draw_win_and_loss_witness :
  let cells := s_cells lost_then_cleared in
  (reports_lost (Screen YouWin GameOver) ↔ exploded_somewhere 3 2 cells) ∧
  (¬ exploded_somewhere 3 2 cells →
   Forall (λ c, is_mine c = false → state c = UNCOVERED) cells →
   reports_won (Screen YouWin GameOver)
   ∧ row_below (Screen YouWin GameOver) = Blank) ∧
  (reports_won (Screen YouWin GameOver) →
   reports_won (Screen Blank Blank) ∨
   Forall (λ c, is_mine c = false → state c = UNCOVERED) cells).
Proof.
  apply (draw_win_and_loss 3 2 1 (s_cells lost_then_cleared)
           (Screen Blank Blank) (Screen YouWin GameOver));
    [reflexivity|lia|lia|reflexivity
    |apply (bool_decide_unpack _); by vm_compute|reflexivity].
Defined.

Lemma draw_counts_flags_witness :
  row_below (Screen Blank (UnflaggedMines 0))
  = UnflaggedMines (1 - Z.of_nat (flagged misflagged)).
Proof.
  apply (draw_counts_flags 3 2 1 misflagged (Screen Blank Blank)
           (Screen Blank (UnflaggedMines 0)));
    [reflexivity|lia|lia
    |apply no_exploded_Forall, (bool_decide_unpack _); by vm_compute
    |by vm_compute|reflexivity].
Defined.
